(** * deadlinks: link checking with a persistent cache

    A shallow embedding of [deadlinks.py], a Pelican plugin that fetches
    every external link of a rendered page, classifies the answer, keeps
    the classification in an SQLite table and annotates the anchors whose
    target is dead.

    Python objects are modelled as follows.
    - Option values are a small sum type [value]; a settings entry is
      either such a value or a dictionary of them ([gmap string value]).
    - Exceptions are an error type [exn]; effectful code lives in a state
      and error monad [M S] that keeps the state reached when the
      exception was raised.
    - The SQLite files are a map from path to the [url_cache] table, itself
      a map from URL to the stored row; the names that SQLite keeps
      private to a connection ([:memory:], the empty name) are not files.
    - The HTTP client and the HTML parser and serializer are parameters of
      the development (section variables).
    - The BeautifulSoup tree is a tree of tags that carry an object
      identity, so that the references held by the anchor list denote the
      same object although the tree is mutated in between. *)

From Stdlib Require Import ZArith QArith String List DecimalString Lia.
From stdpp Require Import gmap strings list.

Local Open Scope string_scope.
Local Open Scope Z_scope.

(** ** Python values *)

(** The values an option can hold: [None], a boolean, an integer, a string
    or a list of strings. *)
Inductive value :=
| VNone
| VBool (b : bool)
| VInt (n : Z)
| VStr (s : string)
| VList (l : list string).

(** A settings entry: a plain value or a dictionary ([DEADLINK_OPTS]). *)
Inductive setting :=
| SVal (v : value)
| SDict (d : gmap string value).

Definition nonempty_string (s : string) : bool :=
  match s with EmptyString => false | String _ _ => true end.

(** Python truth value testing. *)
Definition truthy (v : value) : bool :=
  match v with
  | VNone => false
  | VBool b => b
  | VInt n => negb (n =? 0)
  | VStr s => nonempty_string s
  | VList l => match l with [] => false | _ :: _ => true end
  end.

Definition setting_truthy (s : setting) : bool :=
  match s with
  | SVal v => truthy v
  | SDict d => match map_to_list d with [] => false | _ :: _ => true end
  end.

(** ** Exceptions and the monad *)

Inductive exn :=
| KeyError (key : string)
| TypeError
| AttributeError
| ValueError
| OverflowError
| OperationalError.

Inductive result (A : Type) :=
| Ok (a : A)
| Raise (e : exn).
Arguments Ok {A} a.
Arguments Raise {A} e.

(** A computation over a state [S]: it ends with a value or an exception,
    and in both cases with the state reached so far. *)
Definition M (S A : Type) : Type := S -> result A * S.

Definition ret {S A} (a : A) : M S A := fun s => (Ok a, s).
Definition raise {S A} (e : exn) : M S A := fun s => (Raise e, s).
Definition bind {S A B} (m : M S A) (k : A -> M S B) : M S B :=
  fun s => match m s with
           | (Ok a, s') => k a s'
           | (Raise e, s') => (Raise e, s')
           end.
Definition get_state {S} : M S S := fun s => (Ok s, s).
Definition modify {S} (f : S -> S) : M S unit := fun s => (Ok tt, f s).
Definition of_result {S A} (r : result A) : M S A := fun s => (r, s).

Declare Scope py_scope.
Delimit Scope py_scope with py.
Notation "'let*' x := m 'in' k" := (bind m (fun x => k))
  (at level 10, x pattern, m at level 100, k at level 200) : py_scope.
Notation "m ;;; k" := (bind m (fun _ => k))
  (at level 100, k at level 200, right associativity) : py_scope.
Local Open Scope py_scope.

(** [for x in l: body x] *)
Fixpoint for_each {S A} (l : list A) (body : A -> M S unit) : M S unit :=
  match l with
  | [] => ret tt
  | x :: r => body x ;;; for_each r body
  end.

(** ** Module constants *)

(** [UNKNOWN = None]: availability and success are [True], [False] or
    [UNKNOWN]. *)
Definition tri : Type := option bool.
Definition UNKNOWN : tri := None.

Definition DEFAULT_OPTS : gmap string value :=
  <["archive" := VBool true]>
  (<["classes" := VList []]>
  (<["labels" := VBool false]>
  (<["timeout_duration_ms" := VInt 1000]>
  (<["timeout_is_error" := VBool false]>
  (<["cache_file" := VNone]> ∅))))).

Definition ARCHIVE_URL (url : string) : string :=
  "http://web.archive.org/web/*/" +:+ url.

(** [requests.codes.ok] *)
Definition codes_ok : Z := 200.

(** The triple returned by [get_status_code]. *)
Definition outcome : Type := tri * tri * option Z.

(** ** The world outside the process *)

(** A row of [url_cache] as SQLite holds it: each column is an integer or
    NULL. The [sqlite3] module stores [True] as 1, [False] as 0 and
    [None] as NULL. *)
Abbreviation row := (option Z * option Z * option Z)%type.

Definition sql_of_tri (t : tri) : option Z :=
  match t with
  | Some true => Some 1
  | Some false => Some 0
  | None => None
  end.

(** [bool(x)] for a column value read back: NULL comes back as [None],
    and [bool(None)] is [False]. *)
Definition bool_of_sql (c : option Z) : bool :=
  match c with
  | Some n => negb (n =? 0)
  | None => false
  end.

(** What one [requests.get] that was issued can come back with. *)
Inductive http_result :=
| Response (status_code : Z)
| Timeout
| RequestException.

(** The database names that are no file: [sqlite3.connect(':memory:')]
    and [sqlite3.connect('')] open a database private to the connection,
    which is gone when the connection is closed. *)
Definition private_name (p : string) : bool :=
  String.eqb p ":memory:" || negb (nonempty_string p).

(** The database files: each file that holds the [url_cache] table, with
    the table. A private name is no file: looking it up finds nothing and
    nothing can be stored under it. Every other name is taken to be a
    path at which SQLite can open or create a file. *)
Record store := { files : gmap string (gmap string row) }.

#[global] Instance store_empty : Empty store := {| files := ∅ |}.

#[global] Instance store_lookup : Lookup string (gmap string row) store :=
  fun p s => if private_name p then None else files s !! p.

#[global] Instance store_insert : Insert string (gmap string row) store :=
  fun p table s =>
    if private_name p then s else {| files := <[p := table]> (files s) |}.

(** The database files (path to table, absent when the table was never
    created) and the requests issued so far, most recent first, each with
    its timeout in seconds. *)
Record world := {
  caches : store;
  requests : list (string * Q)
}.

Definition set_caches (c : store) (w : world) : world :=
  {| caches := c; requests := requests w |}.

Definition add_request (url : string) (t : Q) (w : world) : world :=
  {| caches := caches w; requests := (url, t) :: requests w |}.

(** What [sqlite3.connect] opens. *)
Inductive database :=
| OnDisk (path : string)
| Private.

(** [sqlite3.connect(cache_file)] needs a path: it opens the file of
    that name (created when missing), or a private database for the two
    private names. *)
Definition db_path (cache_file : value) : result database :=
  match cache_file with
  | VStr p => Ok (if private_name p then Private else OnDisk p)
  | _ => Raise TypeError
  end.

(** ** The cache store *)

(** In a private database the table is created and lost again when the
    connection is closed. *)
Definition initialize_cache (cache_file : value) : M world unit :=
  let* db := of_result (db_path cache_file) in
  match db with
  | Private => ret tt
  | OnDisk p =>
      modify (fun w =>
        match caches w !! p with
        | Some _ => w
        | None => set_caches (<[p := ∅]> (caches w)) w
        end)
  end.

Definition get_cached_status (url : string) (cache_file : value)
  : M world (option (bool * bool * option Z)) :=
  let* db := of_result (db_path cache_file) in
  match db with
  | Private => raise OperationalError
  | OnDisk p =>
      let* w := get_state in
      match caches w !! p with
      | None => raise OperationalError
      | Some table =>
          match table !! url with
          | Some (availability, success, code) =>
              ret (Some (bool_of_sql availability, bool_of_sql success, code))
          | None => ret None
          end
      end
  end.

Definition update_cache (url : string) (availability success : tri)
    (code : option Z) (cache_file : value) : M world unit :=
  let* db := of_result (db_path cache_file) in
  match db with
  | Private => raise OperationalError
  | OnDisk p =>
      let* w := get_state in
      match caches w !! p with
      | None => raise OperationalError
      | Some table =>
          modify (set_caches
            (<[p := <[url := (sql_of_tri availability, sql_of_tri success, code)]>
                      table]>
               (caches w)))
      end
  end.

(** ** Options *)

(** [opts[name]] *)
Definition subscript (opts : gmap string value) (name : string) : result value :=
  match opts !! name with
  | Some v => Ok v
  | None => Raise (KeyError name)
  end.

(** [opts[name] if name in opts else DEFAULT_OPTS[name]] *)
Definition get_opt (opts : gmap string value) (name : string) : result value :=
  match opts !! name with
  | Some v => Ok v
  | None => subscript DEFAULT_OPTS name
  end.

(** The integers from which on the conversion to a float overflows:
    2^1024 - 2^970, half way between the largest float and 2^1024. *)
Definition float_limit : Z := Eval vm_compute in (2 ^ 1024 - 2 ^ 970).

(** [x / MS_IN_SECOND] with [MS_IN_SECOND = 1000.0]: defined on numbers
    (a boolean is the integer 0 or 1). The integer is converted to a
    float first, which raises [OverflowError] when it is too large. The
    float quotient is represented by the rational that it rounds. *)
Definition div_ms (v : value) : result Q :=
  match v with
  | VInt n =>
      if Z.abs n <? float_limit then Ok (n # 1000)%Q else Raise OverflowError
  | VBool b => Ok ((if b then 1 else 0) # 1000)%Q
  | _ => Raise TypeError
  end.

(** ** The classifier *)

Section Classifier.

(** The HTTP capability: what [requests.get] does with a URL and a
    timeout, given the requests issued before. It issues the request and
    comes back with one of the three outcomes, or it raises an exception
    of its own without issuing anything ([ValueError] for a timeout that
    is not positive). *)
Variable http_get : list (string * Q) -> string -> Q -> result http_result.

(** [requests.get(url, timeout=...)] inside the [try] of the classifier:
    a request that was issued joins the log; an exception that is neither
    [Timeout] nor a [RequestException] is not caught and goes through. *)
Definition requests_get (url : string) (timeout : Q) : M world http_result :=
  fun w =>
    match http_get (requests w) url timeout with
    | Ok r => (Ok r, add_request url timeout w)
    | Raise e => (Raise e, w)
    end.

Definition classify (r : http_result) : outcome :=
  match r with
  | Response code => (Some true, Some (code =? codes_ok), Some code)
  | Timeout => (Some false, UNKNOWN, None)
  | RequestException => (UNKNOWN, Some false, None)
  end.

Definition get_status_code (url : string) (opts : gmap string value)
    (cache_file : value) : M world outcome :=
  let* cached :=
    (if truthy cache_file then get_cached_status url cache_file
     else ret None) in
  match cached with
  | Some (availability, success, code) =>
      ret (Some availability, Some success, code)
  | None =>
      let* ms := of_result (subscript opts "timeout_duration_ms") in
      let* timeout_duration_seconds := of_result (div_ms ms) in
      let* r := requests_get url timeout_duration_seconds in
      let '(availability, success, code) := classify r in
      (if truthy cache_file
       then update_cache url availability success code cache_file
       else ret tt) ;;;
      ret (availability, success, code)
  end.

End Classifier.

(** ** The document tree *)

(** An attribute value: a string, or a list of strings for the
    multi-valued attributes such as [class]. *)
Inductive attr :=
| AStr (s : string)
| AList (l : list string).

(** A node of the parsed document: a string, or a tag with its object
    identity, its name, its attribute dictionary (in insertion order) and
    its children. The document object itself is a tag. *)
#[warnings="-register-all"]
Inductive node :=
| NavigableString (s : string)
| Tag (id : nat) (name : string) (attrs : list (string * attr))
      (contents : list node).

Fixpoint strings_eqb (l l' : list string) : bool :=
  match l, l' with
  | [], [] => true
  | x :: r, x' :: r' => String.eqb x x' && strings_eqb r r'
  | _, _ => false
  end.

(** [==] on attribute values. *)
Definition attr_eqb (v v' : attr) : bool :=
  match v, v' with
  | AStr s, AStr s' => String.eqb s s'
  | AList l, AList l' => strings_eqb l l'
  | _, _ => false
  end.

(** [attrs.get(k)] *)
Fixpoint attrs_get (k : string) (a : list (string * attr)) : option attr :=
  match a with
  | [] => None
  | (k', v) :: r => if String.eqb k k' then Some v else attrs_get k r
  end.

(** [attrs[k] = v]: an existing key keeps its place, a new one goes last. *)
Fixpoint attrs_set (k : string) (v : attr) (a : list (string * attr))
  : list (string * attr) :=
  match a with
  | [] => [(k, v)]
  | (k', v') :: r =>
      if String.eqb k k' then (k, v) :: r else (k', v') :: attrs_set k v r
  end.

(** [==] on dictionaries: the same keys with equal values, in any order. *)
Definition attrs_eqb (a a' : list (string * attr)) : bool :=
  Nat.eqb (length a) (length a')
  && forallb (fun kv => match attrs_get (fst kv) a' with
                        | Some v' => attr_eqb (snd kv) v'
                        | None => false
                        end) a.

(** [==] on nodes. BeautifulSoup's [Tag.__eq__] holds when the two tags
    have the same name, the same attributes and, child by child, equal
    contents; which objects they are plays no part. A [NavigableString] is
    a [str] and compares as one. *)
Fixpoint node_eqb (x y : node) : bool :=
  match x, y with
  | NavigableString s, NavigableString s' => String.eqb s s'
  | Tag _ n a cs, Tag _ n' a' cs' =>
      String.eqb n n' && attrs_eqb a a'
      && (fix all2 (l l' : list node) : bool :=
            match l, l' with
            | [], [] => true
            | c :: r, c' :: r' => node_eqb c c' && all2 r r'
            | _, _ => false
            end) cs cs'
  | _, _ => false
  end.

(** [x is y] for tags. *)
Definition same_object (x y : node) : bool :=
  match x, y with
  | Tag i _ _ _, Tag j _ _ _ => Nat.eqb i j
  | _, _ => false
  end.

(** [l.index(x)] on a Python list: the position of the first element [y]
    with [y is x or y == x]. On the children of a tag [==] is the equality
    above, so the index of a tag is the index of its first child that
    equals the tag, which need not be the tag itself. *)
Fixpoint index (x : node) (l : list node) : option nat :=
  match l with
  | [] => None
  | y :: r =>
      if same_object y x || node_eqb y x then Some O
      else option_map S (index x r)
  end.

(** [l.insert(i, x)] *)
Definition insert_at (i : nat) (x : node) (l : list node) : list node :=
  firstn i l ++ x :: skipn i l.

Definition has_id (a : nat) (n : node) : bool :=
  match n with
  | Tag i _ _ _ => Nat.eqb i a
  | NavigableString _ => false
  end.

(** The nodes below a node, in document order. *)
Fixpoint descendants (n : node) : list node :=
  match n with
  | NavigableString _ => []
  | Tag _ _ _ cs => flat_map (fun c => c :: descendants c) cs
  end.

Definition tag_named (names : list string) (n : node) : option nat :=
  match n with
  | Tag i nm _ _ => if existsb (String.eqb nm) names then Some i else None
  | NavigableString _ => None
  end.

(** [soup.find_all(names)]: references to the tags below the root that
    bear one of the names, in document order. *)
Definition find_all (names : list string) (root : node) : list nat :=
  omap (tag_named names) (descendants root).

(** The tag a reference denotes. *)
Definition find_tag (a : nat) (root : node) : option node :=
  List.find (has_id a) (root :: descendants root).

Definition is_parent_of (a : nat) (n : node) : bool :=
  match n with
  | Tag _ _ _ cs => existsb (has_id a) cs
  | NavigableString _ => false
  end.

(** [anchor.parent] *)
Definition find_parent (a : nat) (root : node) : option node :=
  List.find (is_parent_of a) (root :: descendants root).

(** In-place mutation of the tag with identity [a]. *)
Fixpoint update_tag (a : nat) (f : node -> node) (n : node) : node :=
  match n with
  | NavigableString _ => n
  | Tag i nm at_ cs =>
      if Nat.eqb i a then f n else Tag i nm at_ (map (update_tag a f) cs)
  end.

Definition with_attr (k : string) (v : attr) (n : node) : node :=
  match n with
  | Tag i nm at_ cs => Tag i nm (attrs_set k v at_) cs
  | NavigableString _ => n
  end.

Definition with_contents (cs : list node) (n : node) : node :=
  match n with
  | Tag i nm at_ _ => Tag i nm at_ cs
  | NavigableString _ => n
  end.

Fixpoint max_id (n : node) : nat :=
  match n with
  | NavigableString _ => O
  | Tag i _ _ cs => Nat.max i (fold_right Nat.max O (map max_id cs))
  end.

(** A node and the nodes below it, in document order. *)
Definition nodes (n : node) : list node := n :: descendants n.

(** The identities of the tags of a tree. *)
Fixpoint ids (n : node) : list nat :=
  match n with
  | NavigableString _ => []
  | Tag i _ _ cs => i :: flat_map ids cs
  end.

(** A tag around a hole: the tag itself and its children to the left and
    to the right of the hole. *)
Record frame := {
  f_id : nat;
  f_name : string;
  f_attrs : list (string * attr);
  f_left : list node;
  f_right : list node
}.

Definition fill (f : frame) (n : node) : node :=
  Tag (f_id f) (f_name f) (f_attrs f) (f_left f ++ n :: f_right f).

(** The tree with [n] in the hole of a path of frames, innermost first. *)
Fixpoint plug (ctx : list frame) (n : node) : node :=
  match ctx with
  | [] => n
  | f :: up => plug up (fill f n)
  end.

Definition frame_ids (f : frame) : list nat :=
  f_id f :: flat_map ids (f_left f) ++ flat_map ids (f_right f).

Definition ctx_ids (ctx : list frame) : list nat := flat_map frame_ids ctx.

(** ** One pass over a document *)

(** The annotator calls, recorded so that properties about how often an
    anchor is annotated can be stated. *)
Inductive call :=
| ConnectionErrorCall (anchor : nat)
| AccessErrorCall (anchor : nat) (code : Z).

Record pass := {
  outside : world;
  soup_doc : node;
  calls : list call
}.

Definition set_soup (t : node) (p : pass) : pass :=
  {| outside := outside p; soup_doc := t; calls := calls p |}.

Definition log_call (c : call) (p : pass) : pass :=
  {| outside := outside p; soup_doc := soup_doc p; calls := c :: calls p |}.

(** Running a classifier step inside a pass. *)
Definition lift {A} (m : M world A) : M pass A :=
  fun p => let (r, w) := m (outside p) in
           (r, {| outside := w; soup_doc := soup_doc p; calls := calls p |}).

(** [anchor.attrs] *)
Definition attrs_of (anchor : nat) : M pass (list (string * attr)) :=
  let* p := get_state in
  match find_tag anchor (soup_doc p) with
  | Some (Tag _ _ at_ _) => ret at_
  | _ => raise AttributeError
  end.

(** [anchor[k] = v] *)
Definition set_item (anchor : nat) (k : string) (v : attr) : M pass unit :=
  modify (fun p => set_soup (update_tag anchor (with_attr k v) (soup_doc p)) p).

(** [idx = anchor.parent.contents.index(anchor) + 1] followed by
    [anchor.parent.insert(idx, new)]: [contents] is a Python list, and
    its index compares with [==]. The node inserted is the span that the
    template parsed to. *)
Definition insert_after_index (anchor : nat) (new : node) : M pass unit :=
  let* p := get_state in
  match find_tag anchor (soup_doc p), find_parent anchor (soup_doc p) with
  | Some tag, Some (Tag pid _ _ cs) =>
      match index tag cs with
      | Some i =>
          modify (set_soup
            (update_tag pid (with_contents (insert_at (S i) new cs))
               (soup_doc p)))
      | None => raise ValueError
      end
  | _, _ => raise AttributeError
  end.

(** What [BeautifulSoup(SPAN_..., 'html.parser').span] is: an empty span
    with the two label classes. It is a new object; [id] is its identity. *)
Definition span (style : string) (id : nat) : node :=
  Tag id "span" [("class", AList ["label"; style])] [].

Definition SPAN_WARNING : nat -> node := span "label-warning".
Definition SPAN_DANGER : nat -> node := span "label-danger".

(** [tag.append(text)] *)
Definition append (text : string) (n : node) : node :=
  match n with
  | Tag i nm at_ cs => Tag i nm at_ (cs ++ [NavigableString text])
  | NavigableString _ => n
  end.

(** An identity no object of the tree has. *)
Definition new_id (root : node) : nat := S (max_id root).

(** ** The annotator *)

(** [for cls in classes]: a list gives its elements, a string its
    characters; the other values are not iterable. *)
Definition iterate (v : value) : result (list string) :=
  match v with
  | VList l => Ok l
  | VStr s => Ok (map (fun c => String c EmptyString) (list_ascii_of_string s))
  | _ => Raise TypeError
  end.

(** [node['class'] = node.get('class', []) + [name, ]] *)
Definition add_class (anchor : nat) (name : string) : M pass unit :=
  let* at_ := attrs_of anchor in
  match default (AList []) (attrs_get "class" at_) with
  | AList l => set_item anchor "class" (AList (l ++ [name]))
  | AStr _ => raise TypeError
  end.

Definition change_to_archive (anchor : nat) : M pass unit :=
  let* at_ := attrs_of anchor in
  match attrs_get "href" at_ with
  | None => raise (KeyError "href")
  | Some (AStr src) => set_item anchor "href" (AStr (ARCHIVE_URL src))
  | Some (AList _) => raise TypeError
  end.

(** [str(code)] *)
Definition str (code : Z) : string := NilZero.string_of_int (Z.to_int code).

(** Each annotator first records that it was called. *)
Definition on_connection_error (anchor : nat) (opts : gmap string value)
  : M pass unit :=
  modify (log_call (ConnectionErrorCall anchor)) ;;;
  let* classes := of_result (get_opt opts "classes") in
  let* names := of_result (iterate classes) in
  for_each names (add_class anchor) ;;;
  let* labels := of_result (get_opt opts "labels") in
  (if truthy labels
   then
     let* p := get_state in
     let soup := append "not available" (SPAN_DANGER (new_id (soup_doc p))) in
     insert_after_index anchor soup
   else ret tt) ;;;
  let* archive := of_result (get_opt opts "archive") in
  if truthy archive then change_to_archive anchor else ret tt.

Definition on_access_error (anchor : nat) (code : Z)
    (opts : gmap string value) : M pass unit :=
  modify (log_call (AccessErrorCall anchor code)) ;;;
  let* classes := of_result (get_opt opts "classes") in
  let* names := of_result (iterate classes) in
  for_each names (add_class anchor) ;;;
  let* labels := of_result (get_opt opts "labels") in
  (if truthy labels
   then
     let* p := get_state in
     let soup := append (str code) (SPAN_WARNING (new_id (soup_doc p))) in
     insert_after_index anchor soup
   else ret tt) ;;;
  let* archive := of_result (get_opt opts "archive") in
  if truthy archive then change_to_archive anchor else ret tt.

(** ** The document processor *)

Record content := {
  _content : option string;
  settings : gmap string setting
}.

(** [opt in inst.settings and inst.settings[opt]], as a truth value. *)
Definition user_enabled (inst : content) (opt : string) : bool :=
  match settings inst !! opt with
  | Some v => setting_truthy v
  | None => false
  end.

(** [opts.get]: only a dictionary has it. *)
Definition as_dict (s : setting) : result (gmap string value) :=
  match s with
  | SDict d => Ok d
  | SVal _ => Raise AttributeError
  end.

(** [url.startswith]: only a string has it. *)
Definition as_str (v : attr) : result string :=
  match v with
  | AStr s => Ok s
  | AList _ => Raise AttributeError
  end.

(** [not url.startswith('http') or (siteurl and url.startswith(siteurl))] *)
Definition skip_link (siteurl : setting) (url : string) : result bool :=
  if negb (String.prefix "http" url) then Ok true
  else if setting_truthy siteurl then
    match siteurl with
    | SVal (VStr s) => Ok (String.prefix s url)
    | _ => Raise TypeError
    end
  else Ok false.

(** [not x] for availability and success. *)
Definition tri_not (t : tri) : bool :=
  match t with
  | Some b => negb b
  | None => true
  end.

(** [x == UNKNOWN] *)
Definition is_unknown (t : tri) : bool :=
  match t with
  | Some _ => false
  | None => true
  end.

Section Processor.

Variable http_get : list (string * Q) -> string -> Q -> result http_result.
Variable parse : string -> node.
Variable serialize : node -> string.

(** What the loop does with a classified anchor. *)
Definition dispatch (anchor : nat) (opts : gmap string value)
    (o : outcome) : M pass unit :=
  let '(avail, success, code) := o in
  if tri_not avail then
    let* timeout_is_error := of_result (get_opt opts "timeout_is_error") in
    if truthy timeout_is_error || is_unknown success
    then on_connection_error anchor opts
    else ret tt
  else
    match code with
    | Some c =>
        if tri_not success && negb (c =? 0)
        then on_access_error anchor c opts
        else ret tt
    | None => ret tt
    end.

(** The body of the loop over the anchors. *)
Definition check_anchor (siteurl : setting) (opts : gmap string value)
    (cache_file : value) (anchor : nat) : M pass unit :=
  let* at_ := attrs_of anchor in
  match attrs_get "href" at_ with
  | None => ret tt
  | Some href =>
      let* url := of_result (as_str href) in
      let* skip := of_result (skip_link siteurl url) in
      if skip then ret tt
      else
        let* o := lift (get_status_code http_get url opts cache_file) in
        dispatch anchor opts o
  end.

Definition content_object_init (instance : content) : M world content :=
  match _content instance with
  | None => ret instance
  | Some html =>
      if negb (user_enabled instance "DEADLINK_VALIDATION") then ret instance
      else
        let settings := settings instance in
        let siteurl :=
          default (SVal (VStr EmptyString)) (settings !! "SITEURL") in
        let* opts :=
          of_result
            (as_dict (default (SDict DEFAULT_OPTS) (settings !! "DEADLINK_OPTS"))) in
        let cache_file := default VNone (opts !! "cache_file") in
        (if truthy cache_file then initialize_cache cache_file else ret tt) ;;;
        fun w =>
          let soup := parse html in
          let p0 := {| outside := w; soup_doc := soup; calls := [] |} in
          match for_each (find_all ["a"; "object"] soup)
                  (check_anchor siteurl opts cache_file) p0 with
          | (Ok _, p) =>
              (Ok {| _content := Some (serialize (soup_doc p));
                     settings := settings |}, outside p)
          | (Raise e, p) => (Raise e, outside p)
          end
  end.

End Processor.

(** ** Predicates used by the statements *)

(** The invariant of an outcome: there is a status code exactly when the
    target was reachable. *)
Definition outcome_inv (o : outcome) : Prop :=
  let '(availability, _, code) := o in
  is_Some code <-> availability = Some true.

(** The same for a stored row, whose availability is read back through
    [bool_of_sql]. *)
Definition row_inv (r : row) : Prop :=
  let '(availability, _, code) := r in
  is_Some code <-> bool_of_sql availability = true.

(** Every row of every cache table satisfies the invariant. *)
Definition cache_wf (w : world) : Prop :=
  forall p table url r,
    caches w !! p = Some table -> table !! url = Some r -> row_inv r.

(** What a cache hit makes of an outcome that was stored: the unknown
    values come back as [False]. *)
Definition read_back (o : outcome) : outcome :=
  let '(availability, success, code) := o in
  (Some (bool_of_sql (sql_of_tri availability)),
   Some (bool_of_sql (sql_of_tri success)), code).

(** A computation that only touches the document tree. *)
Definition tree_only {A} (m : M pass A) : Prop :=
  forall p, outside (snd (m p)) = outside p /\ calls (snd (m p)) = calls p.

(** The anchor is passed over by the loop: it has no [href], or its
    [href] is filtered out. *)
Definition passed_over (siteurl : setting) (root : node) (a : nat) : Prop :=
  exists i nm at_ cs,
    find_tag a root = Some (Tag i nm at_ cs) /\
    (attrs_get "href" at_ = None \/
     exists url, attrs_get "href" at_ = Some (AStr url) /\
                 skip_link siteurl url = Ok true).

(** The anchor an annotator call was made for, and how many calls of a
    log were made for a given anchor. *)
Definition call_anchor (c : call) : nat :=
  match c with
  | ConnectionErrorCall a => a
  | AccessErrorCall a _ => a
  end.

Definition calls_for (a : nat) (l : list call) : nat :=
  count_occ Nat.eq_dec (map call_anchor l) a.

(** What both annotators do once the call is recorded: the two bodies
    differ in the span template and in the text of the label only. *)
Definition annotation_steps (anchor : nat) (opts : gmap string value)
    (template : nat -> node) (text : string) : M pass unit :=
  let* classes := of_result (get_opt opts "classes") in
  let* names := of_result (iterate classes) in
  for_each names (add_class anchor) ;;;
  let* labels := of_result (get_opt opts "labels") in
  (if truthy labels
   then
     let* p := get_state in
     let soup := append text (template (new_id (soup_doc p))) in
     insert_after_index anchor soup
   else ret tt) ;;;
  let* archive := of_result (get_opt opts "archive") in
  if truthy archive then change_to_archive anchor else ret tt.

(** Whether a boolean option, resolved with its default, is on. *)
Definition opt_on (opts : gmap string value) (name : string) : bool :=
  match get_opt opts name with
  | Ok v => truthy v
  | Raise _ => false
  end.

(** The attributes of an anchor once the class names were appended to
    its class list [old]. *)
Definition with_classes (old names : list string) (at_ : list (string * attr))
  : list (string * attr) :=
  match names with
  | [] => at_
  | _ :: _ => attrs_set "class" (AList (old ++ names)) at_
  end.

(** The attributes once the [href] points to the archive, if asked. *)
Definition with_archive (archive : bool) (url : string)
    (at_ : list (string * attr)) : list (string * attr) :=
  if archive then attrs_set "href" (AStr (ARCHIVE_URL url)) at_ else at_.

(** A frame with more nodes right after the hole. *)
Definition add_right (new : list node) (f : frame) : frame :=
  {| f_id := f_id f; f_name := f_name f; f_attrs := f_attrs f;
     f_left := f_left f; f_right := new ++ f_right f |}.

(** Every row of [w] is still in [w'], unchanged. *)
Definition rows_kept (w w' : world) : Prop :=
  forall path table url r,
    caches w !! path = Some table -> table !! url = Some r ->
    exists table', caches w' !! path = Some table' /\ table' !! url = Some r.

(** Since the request log was [req0] and the table of [path] was
    [table0], each URL was requested at most once, none of the requested
    URLs had a row in [table0], all of them have one now, and no row was
    lost. *)
Definition requested_once (path : string) (table0 : gmap string row)
    (req0 : list (string * Q)) (w : world) : Prop :=
  exists new table,
    requests w = (new ++ req0)%list
    /\ caches w !! path = Some table
    /\ NoDup (map fst new)
    /\ (forall u, u ∈ map fst new -> table0 !! u = None /\ is_Some (table !! u))
    /\ (forall u, is_Some (table0 !! u) -> is_Some (table !! u)).

(** The identity of a node, if it is a tag. *)
Definition node_id (n : node) : option nat :=
  match n with
  | Tag i _ _ _ => Some i
  | NavigableString _ => None
  end.

(** ** Sample inputs *)

Definition link (i : nat) (href : string) : node :=
  Tag i "a" [("href", AStr href)] [NavigableString "x"].

(** [<p><a href=u>x</a><a href=u>x</a></p>] *)
Definition two_links (u : string) : node :=
  Tag 0 "[document]" [] [Tag 1 "p" [] [link 2 u; link 3 u]].

(** [<p><a href=u>x</a></p>] *)
Definition one_link (u : string) : node :=
  Tag 0 "[document]" [] [Tag 1 "p" [] [link 2 u]].

Definition always (r : http_result)
  : list (string * Q) -> string -> Q -> result http_result :=
  fun _ _ _ => Ok r.

(** A server that answers 200, behind a [requests.get] that refuses a
    timeout that is not positive. *)
Definition positive_timeouts_only
  : list (string * Q) -> string -> Q -> result http_result :=
  fun _ _ t => if Qle_bool t 0 then Raise ValueError else Ok (Response 200).

Definition no_world : world := {| caches := ∅; requests := [] |}.

Definition fresh_pass (w : world) (t : node) : pass :=
  {| outside := w; soup_doc := t; calls := [] |}.

Definition no_siteurl : setting := SVal (VStr EmptyString).

Definition validated (html : string) (opts : gmap string value) : content :=
  {| _content := Some html;
     settings := <["DEADLINK_VALIDATION" := SVal (VBool true)]>
                 (<["DEADLINK_OPTS" := SDict opts]> ∅) |}.

Definition url_x : string := "http://x/".

(** [{'timeout_duration_ms': 1000}] *)
Definition basic_opts : gmap string value :=
  <["timeout_duration_ms" := VInt 1000]> ∅.

(** [{'cache_file': 'cache.db', 'timeout_duration_ms': 1000}] *)
Definition cached_opts : gmap string value :=
  <["cache_file" := VStr "cache.db"]> basic_opts.

(** [{'labels': True}]: no timeout given. *)
Definition labels_only_opts : gmap string value :=
  <["labels" := VBool true]> ∅.

(** [{'labels': True, 'archive': False, 'timeout_duration_ms': 1000}] *)
Definition labels_no_archive_opts : gmap string value :=
  <["labels" := VBool true]> (<["archive" := VBool false]> basic_opts).

(** [{'classes': ['dead'], 'labels': True, 'timeout_duration_ms': 1000}] *)
Definition full_opts : gmap string value :=
  <["classes" := VList ["dead"]]> (<["labels" := VBool true]> basic_opts).

(** A parser and a serializer to run the processor with: the parser
    returns a given tree, the serializer a fixed text. *)
Definition parse_as (t : node) : string -> node := fun _ => t.
Definition serialize_as (out : string) : node -> string := fun _ => out.

(** The world once [cache.db] has its empty table. *)
Definition cache_ready : world :=
  (initialize_cache (VStr "cache.db") no_world).2.

(** One second, as the quotient of 1000 by [MS_IN_SECOND]. *)
Definition one_second : Q := (1000 # 1000)%Q.

(** ** Laws of the monad and of tree-only computations *)

Lemma bind_ok {S A B} (m : M S A) (k : A -> M S B) s a s' :
  m s = (Ok a, s') -> bind m k s = k a s'.
Proof. intros H. unfold bind. now rewrite H. Qed.

Lemma bind_raise {S A B} (m : M S A) (k : A -> M S B) s e s' :
  m s = (Raise e, s') -> bind m k s = (Raise e, s').
Proof. intros H. unfold bind. now rewrite H. Qed.


Lemma tree_only_ret {A} (a : A) : tree_only (ret a).
Proof. intros p. now split. Qed.

Lemma tree_only_raise {A} e : tree_only (@raise pass A e).
Proof. intros p. now split. Qed.

Lemma tree_only_of_result {A} (r : result A) : tree_only (of_result r).
Proof. intros p. now split. Qed.

Lemma tree_only_get_state : tree_only (@get_state pass).
Proof. intros p. now split. Qed.

Lemma tree_only_set_soup (f : pass -> node) :
  tree_only (modify (fun p => set_soup (f p) p)).
Proof. intros p. now split. Qed.

Lemma tree_only_bind {A B} (m : M pass A) (k : A -> M pass B) :
  tree_only m -> (forall a, tree_only (k a)) -> tree_only (bind m k).
Proof.
  intros Hm Hk p. unfold bind.
  destruct (Hm p) as [Ho Hc]. destruct (m p) as [[a|e] p'] eqn:E; simpl in *.
  - destruct (Hk a p') as [Ho' Hc']. split; congruence.
  - now split.
Qed.

Lemma tree_only_for_each {A} (l : list A) (body : A -> M pass unit) :
  (forall x, tree_only (body x)) -> tree_only (for_each l body).
Proof.
  intros H. induction l as [|x r IH]; simpl.
  - apply tree_only_ret.
  - apply tree_only_bind; [apply H | intros _; apply IH].
Qed.

Create HintDb tree_only.
#[export] Hint Resolve tree_only_ret tree_only_raise tree_only_of_result
  tree_only_get_state tree_only_set_soup tree_only_for_each : tree_only.

Ltac tree_only_tac :=
  repeat first
    [ apply tree_only_bind; [| intros ?]
    | progress auto with tree_only
    | match goal with
      | |- tree_only (match ?x with _ => _ end) => destruct x
      | |- tree_only (if ?b then _ else _) => destruct b
      end ].

Lemma tree_only_attrs_of a : tree_only (attrs_of a).
Proof. unfold attrs_of. tree_only_tac. Qed.

Lemma tree_only_set_item a k v : tree_only (set_item a k v).
Proof. unfold set_item. apply tree_only_set_soup. Qed.

Lemma tree_only_insert_after_index a new : tree_only (insert_after_index a new).
Proof.
  unfold insert_after_index. tree_only_tac.
Qed.

#[export] Hint Resolve tree_only_attrs_of tree_only_set_item
  tree_only_insert_after_index : tree_only.

Lemma tree_only_add_class a name : tree_only (add_class a name).
Proof. unfold add_class. tree_only_tac. Qed.

Lemma tree_only_change_to_archive a : tree_only (change_to_archive a).
Proof. unfold change_to_archive. tree_only_tac. Qed.

#[export] Hint Resolve tree_only_add_class tree_only_change_to_archive
  : tree_only.

(** ** The cache store and the classifier *)

Lemma row_inv_classify r :
  let '(availability, success, code) := classify r in
  row_inv (sql_of_tri availability, sql_of_tri success, code).
Proof.
  destruct r; simpl; split; intros H;
    try reflexivity; try discriminate; try (now eexists);
    destruct H; discriminate.
Qed.

Lemma outcome_inv_classify r : outcome_inv (classify r).
Proof.
  destruct r; simpl; split; intros H;
    try reflexivity; try discriminate; try (now eexists);
    destruct H; discriminate.
Qed.

(** *** The database files *)

Lemma store_lookup_empty p : (∅ : store) !! p = None.
Proof.
  unfold lookup at 1, store_lookup.
  destruct (private_name p); [reflexivity|]. apply lookup_empty.
Qed.

(** Only a name that is not private has a table. *)
Lemma store_lookup_persistent (s : store) p table :
  s !! p = Some table -> private_name p = false.
Proof. unfold lookup at 1, store_lookup. now destruct (private_name p). Qed.

Lemma store_lookup_insert_eq (s : store) p table :
  private_name p = false -> <[p := table]> s !! p = Some table.
Proof.
  intros H. unfold lookup at 1, insert at 1, store_lookup, store_insert.
  rewrite H. simpl. apply lookup_insert_eq.
Qed.

Lemma store_lookup_insert_ne (s : store) p q table :
  p <> q -> <[p := table]> s !! q = s !! q.
Proof.
  intros H. unfold lookup, insert, store_lookup, store_insert.
  destruct (private_name p), (private_name q); try reflexivity.
  simpl. now apply lookup_insert_ne.
Qed.


Lemma db_path_on_disk p :
  private_name p = false -> db_path (VStr p) = Ok (OnDisk p).
Proof. intros H. simpl. now rewrite H. Qed.

Lemma db_path_private p :
  private_name p = true -> db_path (VStr p) = Ok Private.
Proof. intros H. simpl. now rewrite H. Qed.

(** The name that [db_path] gives for a file is not private. *)
Lemma db_path_persistent cache_file p :
  db_path cache_file = Ok (OnDisk p) -> private_name p = false.
Proof.
  destruct cache_file as [| | |q|]; try discriminate. simpl.
  destruct (private_name q) eqn:E; [discriminate|]. now intros [= <-].
Qed.

Lemma cache_wf_empty rs : cache_wf {| caches := ∅; requests := rs |}.
Proof.
  intros p table url r H. simpl in H. now rewrite store_lookup_empty in H.
Qed.

Lemma cache_wf_add_request url t w : cache_wf w -> cache_wf (add_request url t w).
Proof. intros H p table u r. simpl. apply H. Qed.

Lemma cache_wf_insert w p table url r :
  cache_wf w -> caches w !! p = Some table -> row_inv r ->
  cache_wf (set_caches (<[p := <[url := r]> table]> (caches w)) w).
Proof.
  intros Hw Hp Hr q table' u r'. simpl.
  destruct (decide (p = q)) as [->|Hne].
  - rewrite store_lookup_insert_eq by (eapply store_lookup_persistent; eassumption).
    intros [= <-].
    destruct (decide (url = u)) as [->|Hne].
    + rewrite lookup_insert_eq. now intros [= <-].
    + rewrite lookup_insert_ne by done. intros Hu. eapply Hw; eassumption.
  - rewrite store_lookup_insert_ne by done. apply Hw.
Qed.

Lemma cache_wf_initialize cache_file w r w' :
  cache_wf w -> initialize_cache cache_file w = (r, w') -> cache_wf w'.
Proof.
  unfold initialize_cache, bind, of_result, modify.
  destruct (db_path cache_file) as [[p|]|e] eqn:Ed;
    [|now intros ? [= _ <-]|now intros ? [= _ <-]].
  intros Hw [= _ <-]. destruct (caches w !! p) eqn:E; [done|].
  intros q table u r'. simpl.
  destruct (decide (p = q)) as [->|Hne].
  - rewrite store_lookup_insert_eq by (eapply db_path_persistent; eassumption).
    intros [= <-]. now rewrite lookup_empty.
  - rewrite store_lookup_insert_ne by done. apply Hw.
Qed.

Section ClassifierFacts.

Variable http_get : list (string * Q) -> string -> Q -> result http_result.

(** With the cache off, the classifier asks the timeout option, calls
    [requests.get] once and classifies the answer; an exception of
    [requests.get] itself goes through. *)
Lemma get_status_code_no_cache url opts cache_file w ms t :
  truthy cache_file = false ->
  opts !! "timeout_duration_ms" = Some ms -> div_ms ms = Ok t ->
  get_status_code http_get url opts cache_file w
  = match http_get (requests w) url t with
    | Ok r => (Ok (classify r), add_request url t w)
    | Raise e => (Raise e, w)
    end.
Proof.
  intros Hc Hms Ht.
  unfold get_status_code, requests_get, bind, of_result, subscript.
  rewrite Hc, Hms, Ht. simpl.
  destruct (http_get (requests w) url t) as [r|e]; [|reflexivity].
  now destruct (classify r) as [[a s] c].
Qed.

(** A cache hit returns the stored row read through [bool], and touches
    nothing. *)
Lemma get_status_code_hit url opts path w table a s c :
  nonempty_string path = true ->
  caches w !! path = Some table -> table !! url = Some (a, s, c) ->
  get_status_code http_get url opts (VStr path) w
  = (Ok (Some (bool_of_sql a), Some (bool_of_sql s), c), w).
Proof.
  intros Hp Ht Hu.
  unfold get_status_code, get_cached_status.
  rewrite db_path_on_disk by (eapply store_lookup_persistent; eassumption).
  unfold bind, of_result, get_state.
  simpl. rewrite Hp. simpl. rewrite Ht. simpl. now rewrite Hu.
Qed.

(** A cache miss issues one request and stores what it classified. *)
Lemma get_status_code_miss url opts path w table ms t :
  nonempty_string path = true ->
  caches w !! path = Some table -> table !! url = None ->
  opts !! "timeout_duration_ms" = Some ms -> div_ms ms = Ok t ->
  get_status_code http_get url opts (VStr path) w
  = match http_get (requests w) url t with
    | Ok r =>
        let o := classify r in
        (Ok o,
         {| caches :=
              <[path := <[url := (sql_of_tri o.1.1, sql_of_tri o.1.2, o.2)]>
                          table]> (caches w);
            requests := (url, t) :: requests w |})
    | Raise e => (Raise e, w)
    end.
Proof.
  intros Hp Ht Hu Hms Hd.
  unfold get_status_code, get_cached_status, update_cache.
  rewrite db_path_on_disk by (eapply store_lookup_persistent; eassumption).
  unfold requests_get, bind, of_result, get_state, modify, subscript,
    set_caches.
  simpl. rewrite Hp. simpl. rewrite Ht. simpl. rewrite Hu. simpl.
  rewrite Hms, Hd. simpl.
  destruct (http_get (requests w) url t) as [r|e]; [|reflexivity].
  destruct (classify r) as [[a s] c]. simpl. now rewrite Ht.
Qed.

(** After a miss, the next lookup of the same URL is a hit: no request
    is issued, and the outcome comes back with its unknown values turned
    into [False]. *)
Lemma second_lookup_is_served_from_cache url opts path w table ms t o w' :
  nonempty_string path = true ->
  caches w !! path = Some table -> table !! url = None ->
  opts !! "timeout_duration_ms" = Some ms -> div_ms ms = Ok t ->
  get_status_code http_get url opts (VStr path) w = (Ok o, w') ->
  get_status_code http_get url opts (VStr path) w' = (Ok (read_back o), w').
Proof.
  intros Hp Ht Hu Hms Hd.
  rewrite (get_status_code_miss url opts path w table ms t) by assumption.
  destruct (http_get (requests w) url t) as [r|e]; [|discriminate].
  intros [= <- <-].
  destruct (classify r) as [[a s] c]. simpl.
  eapply get_status_code_hit; [assumption| |]; simpl.
  - apply store_lookup_insert_eq. eapply store_lookup_persistent; eassumption.
  - apply lookup_insert_eq.
Qed.

(** The round trip through the cache is exact on the outcomes of a
    response, which have no unknown value. *)
Lemma read_back_response code : read_back (classify (Response code)) = classify (Response code).
Proof. simpl. now destruct (code =? codes_ok). Qed.

(** The outcome of a timeout, success unknown, is produced by a request
    only: a cache hit never returns it. *)
Lemma success_unknown_is_fresh url opts cache_file w a c w' :
  get_status_code http_get url opts cache_file w = (Ok (a, UNKNOWN, c), w') ->
  exists timeout, requests w' = (url, timeout) :: requests w /\
                  http_get (requests w) url timeout = Ok Timeout.
Proof.
  unfold get_status_code, get_cached_status, update_cache, requests_get,
    bind, of_result, get_state, modify, subscript, ret, raise.
  intros H.
  repeat (case_match; simplify_eq; simpl in * );
    try discriminate;
    match goal with
    | Hc : classify ?r = _ |- _ =>
        destruct r eqn:Er; simpl in Hc; simplify_eq
    end;
    eexists; split; try reflexivity; eassumption.
Qed.

(** The classifier never looks at [timeout_is_error]. *)
Lemma get_status_code_ignores_flag url opts cache_file v :
  get_status_code http_get url (<["timeout_is_error" := v]> opts) cache_file
  = get_status_code http_get url opts cache_file.
Proof.
  unfold get_status_code, subscript.
  now rewrite lookup_insert_ne by discriminate.
Qed.

(** The classifier keeps the rows well formed, also when it raises. *)
Lemma get_status_code_cache_wf url opts cache_file w :
  cache_wf w -> cache_wf (get_status_code http_get url opts cache_file w).2.
Proof.
  intros Hw.
  unfold get_status_code, get_cached_status, update_cache, requests_get,
    bind, of_result, get_state, modify, subscript, ret, raise.
  repeat (case_match; simplify_eq; simpl in * );
    try assumption; try (now apply cache_wf_add_request).
  match goal with
  | Hc : classify ?r = _ |- _ =>
      pose proof (row_inv_classify r) as Hr; rewrite Hc in Hr
  end.
  match goal with
  | |- cache_wf (set_caches _ (add_request ?u ?t ?w)) =>
      change (caches w) with (caches (add_request u t w))
  end.
  apply cache_wf_insert;
    [now apply cache_wf_add_request | assumption | assumption].
Qed.

(** C5. Every outcome the classifier returns, computed from a request or
    read from a cache whose rows were written by the classifier, has a
    status code if and only if its availability is reachable; and the
    classifier leaves the cache in such a state. *)
Theorem status_code_iff_reachable url opts cache_file w o w' :
  cache_wf w ->
  get_status_code http_get url opts cache_file w = (Ok o, w') ->
  outcome_inv o /\ cache_wf w'.
Proof.
  intros Hw H. split.
  - revert H.
    unfold get_status_code, get_cached_status, update_cache, requests_get,
      bind, of_result, get_state, modify, subscript, ret, raise.
    intros H.
    repeat (case_match; simplify_eq; simpl in * ); try discriminate.
    all: try match goal with
      | Hc : classify ?r = _ |- _ =>
          pose proof (outcome_inv_classify r) as Ho; now rewrite Hc in Ho
      end.
    match goal with
    | Ht : caches _ !! _ = Some ?table, Hu : ?table !! _ = Some _ |- _ =>
        pose proof (Hw _ _ _ _ Ht Hu) as Hrow
    end.
    simpl in Hrow. destruct Hrow as [Hto Hfrom].
    split; [intros Hs; now rewrite (Hto Hs) | intros [= Hb]; now apply Hfrom].
  - change w' with (Ok o, w').2. rewrite <- H.
    now apply get_status_code_cache_wf.
Qed.

End ClassifierFacts.

(** ** The annotator and the dispatch *)

Lemma get_opt_insert_ne opts k v name :
  k <> name -> get_opt (<[k := v]> opts) name = get_opt opts name.
Proof. intros H. unfold get_opt. now rewrite lookup_insert_ne. Qed.

(** Each recognized option is resolved on its own by [get_opt]: a missing
    key gives the default, whatever the other keys are. *)
Lemma get_opt_default opts name v :
  opts !! name = None -> DEFAULT_OPTS !! name = Some v ->
  get_opt opts name = Ok v.
Proof. intros H D. unfold get_opt, subscript. now rewrite H, D. Qed.

Lemma get_opt_flag_total opts :
  exists v, get_opt opts "timeout_is_error" = Ok v.
Proof.
  unfold get_opt. destruct (opts !! "timeout_is_error") as [v|].
  - now exists v.
  - now exists (VBool false).
Qed.

Lemma on_connection_error_ignores_flag anchor opts v :
  on_connection_error anchor (<["timeout_is_error" := v]> opts)
  = on_connection_error anchor opts.
Proof.
  unfold on_connection_error. now rewrite !get_opt_insert_ne by discriminate.
Qed.

(** What follows the recording of the call only touches the tree. *)
Ltac after_log_call :=
  unfold bind at 1, modify at 1;
  match goal with
  | |- calls (snd (?m ?p)) = _ =>
      assert (tree_only m) as T by tree_only_tac;
      now destruct (T p) as [_ ->]
  end.

Lemma on_connection_error_calls anchor opts p :
  calls (on_connection_error anchor opts p).2
  = ConnectionErrorCall anchor :: calls p.
Proof. unfold on_connection_error. after_log_call. Qed.

Lemma on_access_error_calls anchor code opts p :
  calls (on_access_error anchor code opts p).2
  = AccessErrorCall anchor code :: calls p.
Proof. unfold on_access_error. after_log_call. Qed.

(** The dispatch makes no call, or one call, for its anchor. *)
Lemma dispatch_calls anchor opts o p :
  let p' := (dispatch anchor opts o p).2 in
  calls p' = calls p
  \/ calls p' = ConnectionErrorCall anchor :: calls p
  \/ exists c, calls p' = AccessErrorCall anchor c :: calls p.
Proof.
  destruct o as [[avail success] code]. unfold dispatch.
  destruct (tri_not avail).
  - unfold bind, of_result.
    destruct (get_opt opts "timeout_is_error") as [v|e]; [|now left].
    destruct (truthy v || is_unknown success); [|now left].
    right; left. apply on_connection_error_calls.
  - destruct code as [c|]; [|now left].
    destruct (tri_not success && negb (c =? 0)); [|now left].
    right; right. exists c. apply on_access_error_calls.
Qed.

Lemma lift_calls {A} (m : M world A) p : calls (lift m p).2 = calls p.
Proof. unfold lift. now destruct (m (outside p)). Qed.

Lemma lift_soup {A} (m : M world A) p : soup_doc (lift m p).2 = soup_doc p.
Proof. unfold lift. now destruct (m (outside p)). Qed.

Lemma attrs_of_found anchor p i nm at_ cs :
  find_tag anchor (soup_doc p) = Some (Tag i nm at_ cs) ->
  attrs_of anchor p = (Ok at_, p).
Proof. intros H. unfold attrs_of, bind, get_state. now rewrite H. Qed.

Lemma attrs_of_state anchor p : (attrs_of anchor p).2 = p.
Proof.
  unfold attrs_of, bind, get_state.
  destruct (find_tag anchor (soup_doc p)) as [[|]|]; reflexivity.
Qed.

(** With an empty site URL, the filter only asks for the [http] prefix. *)
Lemma skip_link_no_siteurl url :
  skip_link (SVal (VStr EmptyString)) url = Ok (negb (String.prefix "http" url)).
Proof. unfold skip_link. now destruct (String.prefix "http" url). Qed.

Lemma skip_link_internal site url :
  nonempty_string site = true -> String.prefix site url = true ->
  skip_link (SVal (VStr site)) url = Ok true.
Proof.
  intros Hs Hp. unfold skip_link. simpl. rewrite Hs, Hp.
  now destruct (String.prefix "http" url).
Qed.

(** What the dispatch does with the classification of a transport
    failure other than a timeout (availability unknown, success not-ok,
    no code): the guard [timeout_is_error or success == UNKNOWN] comes
    down to the flag, so the anchor is handed to [on_connection_error]
    exactly when [timeout_is_error], resolved with its default, is true,
    and otherwise everything is left as it was. *)
Theorem transport_failure_follows_flag anchor opts p :
  exists v,
    get_opt opts "timeout_is_error" = Ok v /\
    calls (dispatch anchor opts (UNKNOWN, Some false, None) p).2
    = ((if truthy v then [ConnectionErrorCall anchor] else []) ++ calls p)%list /\
    (truthy v = false ->
     dispatch anchor opts (UNKNOWN, Some false, None) p = (Ok tt, p)).
Proof.
  destruct (get_opt_flag_total opts) as [v Hv]. exists v.
  split; [assumption|].
  unfold dispatch. simpl. unfold bind, of_result. rewrite Hv.
  rewrite orb_false_r. destruct (truthy v); split.
  - apply on_connection_error_calls.
  - discriminate.
  - reflexivity.
  - reflexivity.
Qed.

(** ** The document processor *)

Section ProcessorFacts.

Variable http_get : list (string * Q) -> string -> Q -> result http_result.
Variable parse : string -> node.
Variable serialize : node -> string.

(** An anchor that passes the filter is classified and dispatched. *)
Lemma check_anchor_checked siteurl opts cache_file anchor p i nm at_ cs url :
  find_tag anchor (soup_doc p) = Some (Tag i nm at_ cs) ->
  attrs_get "href" at_ = Some (AStr url) ->
  skip_link siteurl url = Ok false ->
  check_anchor http_get siteurl opts cache_file anchor p
  = bind (lift (get_status_code http_get url opts cache_file))
      (dispatch anchor opts) p.
Proof.
  intros Hf Hh Hs. unfold check_anchor.
  rewrite (bind_ok _ _ p at_ p) by (eapply attrs_of_found; eassumption).
  rewrite Hh. simpl. unfold of_result at 1. unfold bind at 1.
  unfold of_result at 1. unfold bind at 1. now rewrite Hs.
Qed.

(** An anchor that the filter passes over leaves the whole state as it
    was: no request, no cache access, no mutation, no call. *)
Lemma check_anchor_passed_over siteurl opts cache_file anchor p :
  passed_over siteurl (soup_doc p) anchor ->
  check_anchor http_get siteurl opts cache_file anchor p = (Ok tt, p).
Proof.
  intros (i & nm & at_ & cs & Hf & H). unfold check_anchor.
  rewrite (bind_ok _ _ p at_ p) by (eapply attrs_of_found; eassumption).
  destruct H as [Hn | (url & Hh & Hs)].
  - now rewrite Hn.
  - rewrite Hh. simpl. unfold of_result at 1. unfold bind at 1.
    unfold of_result at 1. unfold bind at 1. now rewrite Hs.
Qed.

(** One turn of the loop makes no call, or one call, for its anchor. *)
Lemma check_anchor_calls siteurl opts cache_file anchor p :
  let p' := (check_anchor http_get siteurl opts cache_file anchor p).2 in
  calls p' = calls p
  \/ calls p' = ConnectionErrorCall anchor :: calls p
  \/ exists c, calls p' = AccessErrorCall anchor c :: calls p.
Proof.
  unfold check_anchor, bind.
  pose proof (attrs_of_state anchor p) as Hst.
  destruct (attrs_of anchor p) as [[at_|e] p1]; simpl in Hst; subst p1;
    [|now left].
  destruct (attrs_get "href" at_) as [href|]; [|now left].
  unfold of_result.
  destruct (as_str href) as [url|e]; [|now left].
  destruct (skip_link siteurl url) as [[|]|e]; [now left| |now left].
  pose proof (lift_calls (get_status_code http_get url opts cache_file) p)
    as Hl.
  destruct (lift (get_status_code http_get url opts cache_file) p)
    as [[o|e] p2]; simpl in Hl.
  - rewrite <- Hl. apply dispatch_calls.
  - left. assumption.
Qed.

Lemma calls_for_cons a c l :
  calls_for a (c :: l)
  = ((if Nat.eq_dec (call_anchor c) a then 1 else 0) + calls_for a l)%nat.
Proof.
  unfold calls_for. simpl. now destruct (Nat.eq_dec (call_anchor c) a).
Qed.

Lemma check_anchor_calls_for siteurl opts cache_file anchor p a :
  (calls_for a (calls (check_anchor http_get siteurl opts cache_file anchor p).2)
   <= calls_for a (calls p) + (if Nat.eq_dec anchor a then 1 else 0))%nat.
Proof.
  destruct (check_anchor_calls siteurl opts cache_file anchor p)
    as [H | [H | [c H]]]; rewrite H; try rewrite calls_for_cons; simpl;
    destruct (Nat.eq_dec anchor a); lia.
Qed.

(** Over a whole loop, an anchor gets at most as many calls as the list
    of anchors mentions it. *)
Lemma pass_calls_for siteurl opts cache_file l p a :
  (calls_for a
     (calls (for_each l (check_anchor http_get siteurl opts cache_file) p).2)
   <= calls_for a (calls p) + count_occ Nat.eq_dec l a)%nat.
Proof.
  revert p. induction l as [|x r IH]; intros p; simpl.
  - lia.
  - unfold bind.
    pose proof (check_anchor_calls_for siteurl opts cache_file x p a) as Hx.
    destruct (check_anchor http_get siteurl opts cache_file x p)
      as [[[]|e] p1]; simpl in Hx.
    + specialize (IH p1). destruct (Nat.eq_dec x a); lia.
    + simpl. destruct (Nat.eq_dec x a); lia.
Qed.

(** C3. When the request of an anchor raises a timeout, so that its
    classification is (unreachable, unknown, no code), the anchor is
    handed to [on_connection_error] whether [timeout_is_error] is false
    or true, and the two results are identical. *)
Theorem timeout_annotated_whatever_the_flag
    siteurl opts cache_file anchor p i nm at_ cs url w' :
  find_tag anchor (soup_doc p) = Some (Tag i nm at_ cs) ->
  attrs_get "href" at_ = Some (AStr url) ->
  skip_link siteurl url = Ok false ->
  get_status_code http_get url opts cache_file (outside p)
  = (Ok (Some false, UNKNOWN, None), w') ->
  let run b :=
    check_anchor http_get siteurl (<["timeout_is_error" := VBool b]> opts)
      cache_file anchor p in
  run false = run true /\
  run false
  = on_connection_error anchor opts
      {| outside := w'; soup_doc := soup_doc p; calls := calls p |}.
Proof.
  intros Hf Hh Hs Hg.
  assert (forall b,
    check_anchor http_get siteurl (<["timeout_is_error" := VBool b]> opts)
      cache_file anchor p
    = on_connection_error anchor opts
        {| outside := w'; soup_doc := soup_doc p; calls := calls p |}) as E.
  { intros b.
    rewrite (check_anchor_checked _ _ _ _ _ _ _ _ _ _ Hf Hh Hs).
    rewrite get_status_code_ignores_flag.
    unfold bind, lift. rewrite Hg. unfold dispatch. simpl.
    unfold bind, of_result.
    destruct (get_opt_flag_total (<["timeout_is_error" := VBool b]> opts))
      as [v ->].
    rewrite orb_true_r. now rewrite on_connection_error_ignores_flag. }
  simpl. split; [now rewrite !E | apply E].
Qed.

(** C6 as amended. An anchor whose [href] starts with a non-empty site
    URL is neither checked nor mutated: its turn of the loop leaves the
    requests, the caches, the tree and the call log as they were. An
    empty site URL exempts no link: the filter then only asks for the
    [http] prefix. *)
Theorem internal_link_untouched site opts cache_file anchor p i nm at_ cs url :
  nonempty_string site = true ->
  find_tag anchor (soup_doc p) = Some (Tag i nm at_ cs) ->
  attrs_get "href" at_ = Some (AStr url) ->
  String.prefix site url = true ->
  check_anchor http_get (SVal (VStr site)) opts cache_file anchor p = (Ok tt, p)
  /\ skip_link (SVal (VStr EmptyString)) url
     = Ok (negb (String.prefix "http" url)).
Proof.
  intros Hs Hf Hh Hp. split; [|apply skip_link_no_siteurl].
  apply check_anchor_passed_over.
  exists i, nm, at_, cs. split; [assumption|]. right. exists url.
  split; [assumption|]. now apply skip_link_internal.
Qed.

(** C8. When the content is absent, or [DEADLINK_VALIDATION] is absent
    from the settings or has a false value, the processor returns the
    instance as it was and leaves the world (caches and requests)
    untouched. *)
Theorem guard_does_nothing instance w :
  (_content instance = None
   \/ settings instance !! "DEADLINK_VALIDATION" = None
   \/ exists v, settings instance !! "DEADLINK_VALIDATION" = Some v
                /\ setting_truthy v = false) ->
  content_object_init http_get parse serialize instance w = (Ok instance, w).
Proof.
  intros H. unfold content_object_init, user_enabled.
  destruct (_content instance) as [html|]; [|reflexivity].
  destruct H as [H | [H | (v & H & Hv)]].
  - discriminate.
  - now rewrite H.
  - now rewrite H, Hv.
Qed.

(** C9. One turn of the loop makes at most one annotator call, and that
    call is for the anchor of the turn; over a whole pass an anchor gets
    at most as many calls as the anchor list mentions it; and an anchor
    classified (reachable, ok, 200) gets none and is left as it was. *)
Theorem at_most_one_annotation siteurl opts cache_file anchor l p :
  (let p' := (check_anchor http_get siteurl opts cache_file anchor p).2 in
   calls p' = calls p
   \/ calls p' = ConnectionErrorCall anchor :: calls p
   \/ exists c, calls p' = AccessErrorCall anchor c :: calls p)
  /\ (calls_for anchor
        (calls (for_each l (check_anchor http_get siteurl opts cache_file) p).2)
      <= calls_for anchor (calls p) + count_occ Nat.eq_dec l anchor)%nat
  /\ dispatch anchor opts (Some true, Some true, Some 200) p = (Ok tt, p).
Proof.
  split; [apply check_anchor_calls|].
  split; [apply pass_calls_for|]. reflexivity.
Qed.




End ProcessorFacts.

(** *** The cache invariant over a whole run *)

Lemma on_connection_error_outside anchor opts p :
  outside (on_connection_error anchor opts p).2 = outside p.
Proof.
  unfold on_connection_error. unfold bind at 1, modify at 1.
  match goal with
  | |- outside (snd (?m ?q)) = _ =>
      assert (tree_only m) as T by tree_only_tac;
      now destruct (T q) as [-> _]
  end.
Qed.

Lemma on_access_error_outside anchor code opts p :
  outside (on_access_error anchor code opts p).2 = outside p.
Proof.
  unfold on_access_error. unfold bind at 1, modify at 1.
  match goal with
  | |- outside (snd (?m ?q)) = _ =>
      assert (tree_only m) as T by tree_only_tac;
      now destruct (T q) as [-> _]
  end.
Qed.

(** The dispatch and the annotators stay inside the document. *)
Lemma dispatch_outside anchor opts o p :
  outside (dispatch anchor opts o p).2 = outside p.
Proof.
  destruct o as [[avail success] code]. unfold dispatch.
  destruct (tri_not avail).
  - unfold bind, of_result.
    destruct (get_opt opts "timeout_is_error") as [v|e]; [|reflexivity].
    destruct (truthy v || is_unknown success); [|reflexivity].
    apply on_connection_error_outside.
  - destruct code as [c|]; [|reflexivity].
    destruct (tri_not success && negb (c =? 0)); [|reflexivity].
    apply on_access_error_outside.
Qed.

Section CacheInvariant.

Variable http_get : list (string * Q) -> string -> Q -> result http_result.
Variable parse : string -> node.
Variable serialize : node -> string.

Lemma check_anchor_cache_wf siteurl opts cache_file anchor p :
  cache_wf (outside p) ->
  cache_wf (outside (check_anchor http_get siteurl opts cache_file anchor p).2).
Proof.
  intros Hw. unfold check_anchor, bind.
  pose proof (attrs_of_state anchor p) as Hst.
  destruct (attrs_of anchor p) as [[at_|e] p1]; simpl in Hst; subst p1;
    [|exact Hw].
  destruct (attrs_get "href" at_) as [href|]; [|exact Hw].
  unfold of_result.
  destruct (as_str href) as [url|e]; [|exact Hw].
  destruct (skip_link siteurl url) as [[|]|e]; [exact Hw| |exact Hw].
  pose proof (get_status_code_cache_wf http_get url opts cache_file (outside p) Hw)
    as Hg.
  unfold lift.
  destruct (get_status_code http_get url opts cache_file (outside p))
    as [[o|e] w']; simpl in Hg.
  - now rewrite dispatch_outside.
  - exact Hg.
Qed.

Lemma pass_cache_wf siteurl opts cache_file l : forall p,
  cache_wf (outside p) ->
  cache_wf
    (outside (for_each l (check_anchor http_get siteurl opts cache_file) p).2).
Proof.
  induction l as [|x r IH]; intros p Hw; [exact Hw|].
  simpl. unfold bind.
  pose proof (check_anchor_cache_wf siteurl opts cache_file x p Hw) as Hx.
  destruct (check_anchor http_get siteurl opts cache_file x p) as [[[]|e] p1];
    simpl in Hx; [now apply IH | exact Hx].
Qed.

(** A run of the processor leaves well-formed caches well formed: the
    rows a later run reads are rows the classifier wrote. *)
Lemma content_object_init_cache_wf instance w :
  cache_wf w ->
  cache_wf (content_object_init http_get parse serialize instance w).2.
Proof.
  intros Hw. unfold content_object_init.
  destruct (_content instance) as [html|]; [|exact Hw].
  destruct (negb (user_enabled instance "DEADLINK_VALIDATION")); [exact Hw|].
  unfold bind at 1, of_result.
  destruct (as_dict _) as [opts|e]; [|exact Hw].
  unfold bind.
  set (cache_file := default VNone (opts !! "cache_file")).
  assert (cache_wf
    ((if truthy cache_file then initialize_cache cache_file else ret tt) w).2)
    as Hi.
  { destruct (truthy cache_file); [|exact Hw].
    eapply cache_wf_initialize; [exact Hw | apply surjective_pairing]. }
  destruct ((if truthy cache_file then initialize_cache cache_file else ret tt) w)
    as [[[]|e] w1]; simpl in Hi; [|exact Hi].
  pose proof (pass_cache_wf (default (SVal (VStr EmptyString))
                               (settings instance !! "SITEURL"))
                opts cache_file (find_all ["a"; "object"] (parse html))
                {| outside := w1; soup_doc := parse html; calls := [] |} Hi)
    as Hp.
  destruct (for_each _ _ _) as [[[]|e] p]; exact Hp.
Qed.

End CacheInvariant.

(** ** The tree under mutation *)

Lemma node_induction (P : node -> Prop) :
  (forall s, P (NavigableString s)) ->
  (forall i nm at_ cs, Forall P cs -> P (Tag i nm at_ cs)) ->
  forall n, P n.
Proof.
  intros Hs Ht. fix IH 1. intros [s|i nm at_ cs]; [apply Hs|].
  apply Ht. induction cs as [|c r IHr]; constructor; [apply IH | exact IHr].
Qed.

Lemma find_app_list {A} (P : A -> bool) (l1 l2 : list A) :
  List.find P (l1 ++ l2)
  = match List.find P l1 with Some x => Some x | None => List.find P l2 end.
Proof.
  induction l1 as [|x r IH]; simpl; [reflexivity|].
  now destruct (P x).
Qed.

Lemma find_all_false {A} (P : A -> bool) (l : list A) :
  (forall x, In x l -> P x = false) -> List.find P l = None.
Proof.
  induction l as [|x r IH]; intros H; simpl; [reflexivity|].
  rewrite (H x) by now left. apply IH. intros y Hy. apply H. now right.
Qed.

Lemma nodes_children i nm at_ cs :
  nodes (Tag i nm at_ cs) = Tag i nm at_ cs :: flat_map nodes cs.
Proof. reflexivity. Qed.

(** The identities below a node of a tree are identities of the tree. *)
Lemma ids_of_nodes n : forall m, In m (nodes n) -> incl (ids m) (ids n).
Proof.
  induction n as [s|i nm at_ cs IH] using node_induction; intros m Hm.
  - destruct Hm as [<-|[]]. apply incl_refl.
  - rewrite nodes_children in Hm. destruct Hm as [<-|Hm]; [apply incl_refl|].
    apply in_flat_map in Hm as (c & Hc & Hm).
    rewrite List.Forall_forall in IH. intros x Hx. simpl. right.
    apply in_flat_map. exists c. split; [exact Hc|].
    exact (IH c Hc m Hm x Hx).
Qed.

Lemma has_id_ids a n : has_id a n = true -> In a (ids n).
Proof.
  destruct n as [s|i nm at_ cs]; simpl; [discriminate|].
  intros H. apply Nat.eqb_eq in H. now left.
Qed.

Lemma is_parent_of_ids a n : is_parent_of a n = true -> In a (ids n).
Proof.
  destruct n as [s|i nm at_ cs]; simpl; [discriminate|].
  intros H. apply existsb_exists in H as (c & Hc & H).
  right. apply in_flat_map. exists c. split; [exact Hc|]. now apply has_id_ids.
Qed.

Lemma find_tag_absent a n : ~ In a (ids n) -> List.find (has_id a) (nodes n) = None.
Proof.
  intros H. apply find_all_false. intros m Hm.
  destruct (has_id a m) eqn:E; [|reflexivity].
  exfalso. apply H. apply (ids_of_nodes n m Hm). now apply has_id_ids.
Qed.

Lemma find_parent_absent a n :
  ~ In a (ids n) -> List.find (is_parent_of a) (nodes n) = None.
Proof.
  intros H. apply find_all_false. intros m Hm.
  destruct (is_parent_of a m) eqn:E; [|reflexivity].
  exfalso. apply H. apply (ids_of_nodes n m Hm). now apply is_parent_of_ids.
Qed.

Lemma find_absent_list (P : nat -> node -> bool) a l :
  (forall n, ~ In a (ids n) -> List.find (P a) (nodes n) = None) ->
  ~ In a (flat_map ids l) -> List.find (P a) (flat_map nodes l) = None.
Proof.
  intros HP. induction l as [|c r IH]; intros H; [reflexivity|].
  change (flat_map nodes (c :: r)) with (nodes c ++ flat_map nodes r)%list.
  rewrite find_app_list, HP.
  - apply IH. intros Hr. apply H. simpl. apply in_or_app. now right.
  - intros Hc. apply H. simpl. apply in_or_app. now left.
Qed.

(** A mutation aimed at an identity that a tree does not hold leaves the
    tree as it is. *)
Lemma update_tag_absent a f n : ~ In a (ids n) -> update_tag a f n = n.
Proof.
  induction n as [s|i nm at_ cs IH] using node_induction; intros H;
    [reflexivity|].
  simpl. destruct (Nat.eqb_spec i a) as [->|Hne].
  - exfalso. apply H. now left.
  - f_equal. rewrite List.Forall_forall in IH.
    rewrite <- (map_id cs) at 2. apply map_ext_in. intros c Hc.
    apply IH; [exact Hc|]. intros Ha. apply H. right.
    apply in_flat_map. now exists c.
Qed.

Lemma update_tag_absent_list a f l :
  ~ In a (flat_map ids l) -> map (update_tag a f) l = l.
Proof.
  intros H. rewrite <- (map_id l) at 2. apply map_ext_in. intros c Hc.
  apply update_tag_absent. intros Ha. apply H. apply in_flat_map. now exists c.
Qed.

Lemma ids_le_max_id n : forall a, In a (ids n) -> (a <= max_id n)%nat.
Proof.
  induction n as [s|i nm at_ cs IH] using node_induction; intros a Ha;
    [destruct Ha|].
  simpl in *. destruct Ha as [<-|Ha]; [lia|].
  apply in_flat_map in Ha as (c & Hc & Ha).
  rewrite List.Forall_forall in IH. specialize (IH c Hc a Ha).
  assert (max_id c <= fold_right Nat.max O (map max_id cs))%nat as Hm.
  { clear -Hc. induction cs as [|d r IHr]; [destruct Hc|].
    simpl. destruct Hc as [->|Hc]; [lia|]. specialize (IHr Hc). lia. }
  lia.
Qed.

Lemma new_id_fresh n : ~ In (new_id n) (ids n).
Proof.
  intros H. apply ids_le_max_id in H. unfold new_id in H. lia.
Qed.

(** *** Trees seen from one of their tags *)

Lemma not_in_ctx_cons x fr up :
  ~ In x (ctx_ids (fr :: up)) ->
  ~ In x (frame_ids fr) /\ ~ In x (ctx_ids up).
Proof.
  intros H. change (ctx_ids (fr :: up)) with (frame_ids fr ++ ctx_ids up)%list in H.
  split; intros Hx; apply H; apply in_or_app; tauto.
Qed.

Lemma not_in_frame x fr :
  ~ In x (frame_ids fr) ->
  f_id fr <> x /\ ~ In x (flat_map ids (f_left fr))
  /\ ~ In x (flat_map ids (f_right fr)).
Proof.
  intros H. unfold frame_ids in H. repeat split; intros Hx; apply H.
  - now left.
  - right. apply in_or_app. now left.
  - right. apply in_or_app. now right.
Qed.

Lemma update_tag_fill x f fr n :
  ~ In x (frame_ids fr) ->
  update_tag x f (fill fr n) = fill fr (update_tag x f n).
Proof.
  intros H. apply not_in_frame in H as (Hi & Hl & Hr). unfold fill. simpl.
  destruct (Nat.eqb_spec (f_id fr) x) as [E|_]; [contradiction|].
  f_equal. rewrite map_app. simpl.
  now rewrite !update_tag_absent_list.
Qed.

Lemma update_tag_plug x f ctx : forall n,
  ~ In x (ctx_ids ctx) ->
  update_tag x f (plug ctx n) = plug ctx (update_tag x f n).
Proof.
  induction ctx as [|fr up IH]; intros n H; [reflexivity|].
  apply not_in_ctx_cons in H as [Hfr Hup].
  simpl. rewrite IH by exact Hup. now rewrite update_tag_fill.
Qed.

Lemma update_tag_here a f nm at_ cs :
  update_tag a f (Tag a nm at_ cs) = f (Tag a nm at_ cs).
Proof. simpl. now rewrite Nat.eqb_refl. Qed.

(** A search through a frame goes on in the hole when the frame itself
    and what is to the left of the hole do not answer it. *)
Lemma find_fill (P : node -> bool) fr n y :
  P (fill fr n) = false ->
  List.find P (flat_map nodes (f_left fr)) = None ->
  List.find P (nodes n) = Some y ->
  List.find P (nodes (fill fr n)) = Some y.
Proof.
  intros Hf Hl Hn. unfold fill. rewrite nodes_children.
  simpl List.find. unfold fill in Hf. rewrite Hf.
  rewrite flat_map_app, find_app_list, Hl.
  change (flat_map nodes (n :: f_right fr))
    with (nodes n ++ flat_map nodes (f_right fr))%list.
  now rewrite find_app_list, Hn.
Qed.

Lemma find_tag_plug x ctx : forall n y,
  ~ In x (ctx_ids ctx) ->
  find_tag x n = Some y -> find_tag x (plug ctx n) = Some y.
Proof.
  induction ctx as [|fr up IH]; intros n y H Hn; [exact Hn|].
  apply not_in_ctx_cons in H as [Hfr Hup].
  apply not_in_frame in Hfr as (Hi & Hl & Hr).
  simpl. apply IH; [exact Hup|].
  apply find_fill; [| |exact Hn].
  - simpl. now apply Nat.eqb_neq.
  - now apply (find_absent_list has_id); [apply find_tag_absent|].
Qed.

Lemma no_child_with_id x l : ~ In x (flat_map ids l) -> existsb (has_id x) l = false.
Proof.
  intros H. destruct (existsb (has_id x) l) eqn:E; [|reflexivity].
  exfalso. apply existsb_exists in E as (c & Hc & E). apply H.
  apply in_flat_map. exists c. split; [exact Hc|]. now apply has_id_ids.
Qed.

Lemma find_parent_plug x ctx : forall n y,
  ~ In x (ctx_ids ctx) -> has_id x n = false ->
  find_parent x n = Some y -> find_parent x (plug ctx n) = Some y.
Proof.
  induction ctx as [|fr up IH]; intros n y H Hid Hn; [exact Hn|].
  apply not_in_ctx_cons in H as [Hfr Hup].
  apply not_in_frame in Hfr as (Hi & Hl & Hr).
  simpl. apply IH; [exact Hup| |].
  - simpl. now apply Nat.eqb_neq.
  - apply find_fill; [| |exact Hn].
    + simpl. rewrite existsb_app. simpl. rewrite Hid.
      now rewrite !no_child_with_id.
    + now apply (find_absent_list is_parent_of); [apply find_parent_absent|].
Qed.

(** The tag in the hole of a context that does not hold its identity is
    the tag its identity denotes, and the innermost frame is its parent. *)
Lemma find_tag_in_context a nm at_ cs ctx :
  ~ In a (ctx_ids ctx) ->
  find_tag a (plug ctx (Tag a nm at_ cs)) = Some (Tag a nm at_ cs).
Proof.
  intros H. apply find_tag_plug; [exact H|].
  unfold find_tag. simpl. now rewrite Nat.eqb_refl.
Qed.

Lemma find_parent_in_context a nm at_ cs fr up :
  ~ In a (ctx_ids (fr :: up)) ->
  find_parent a (plug (fr :: up) (Tag a nm at_ cs))
  = Some (fill fr (Tag a nm at_ cs)).
Proof.
  intros H. apply not_in_ctx_cons in H as [Hfr Hup].
  apply not_in_frame in Hfr as (Hi & Hl & Hr).
  simpl. apply find_parent_plug; [exact Hup| |].
  - simpl. now apply Nat.eqb_neq.
  - unfold find_parent. simpl. rewrite existsb_app. simpl.
    rewrite Nat.eqb_refl. now rewrite orb_true_r.
Qed.

(** The identities of a tree are those of the hole and of the context. *)
Lemma ids_fill fr n : Permutation (ids (fill fr n)) (ids n ++ frame_ids fr).
Proof.
  unfold fill, frame_ids. simpl ids. rewrite flat_map_app. simpl flat_map.
  rewrite <- Permutation_middle. apply perm_skip.
  rewrite !app_assoc. apply Permutation_app_tail. apply Permutation_app_comm.
Qed.

Lemma ids_plug ctx : forall n,
  Permutation (ids (plug ctx n)) (ids n ++ ctx_ids ctx).
Proof.
  induction ctx as [|fr up IH]; intros n.
  - simpl. now rewrite app_nil_r.
  - change (plug (fr :: up) n) with (plug up (fill fr n)).
    change (ctx_ids (fr :: up)) with (frame_ids fr ++ ctx_ids up)%list.
    rewrite IH, ids_fill. now rewrite <- app_assoc.
Qed.

Lemma unique_ids_in_context a nm at_ cs fr up :
  NoDup (ids (plug (fr :: up) (Tag a nm at_ cs))) ->
  ~ In a (ctx_ids (fr :: up)) /\ ~ In (f_id fr) (ctx_ids up).
Proof.
  intros H. rewrite ids_plug in H.
  apply NoDup_app in H as (_ & Ha & H). split.
  - intros Hx. apply (Ha a).
    + apply list_elem_of_In. now left.
    + now apply list_elem_of_In.
  - change (ctx_ids (fr :: up)) with (frame_ids fr ++ ctx_ids up)%list in H.
    apply NoDup_app in H as (_ & Hp & _).
    intros Hx. apply (Hp (f_id fr)).
    + apply list_elem_of_In. now left.
    + now apply list_elem_of_In.
Qed.

Lemma max_id_plug ctx : forall n n',
  max_id n = max_id n' -> max_id (plug ctx n) = max_id (plug ctx n').
Proof.
  induction ctx as [|fr up IH]; intros n n' H; [exact H|].
  simpl. apply IH. unfold fill. simpl. rewrite !map_app. simpl.
  rewrite !fold_right_app. simpl. now rewrite H.
Qed.

(** *** The annotator on an anchor in its context *)

Lemma attrs_get_set_eq k v a : attrs_get k (attrs_set k v a) = Some v.
Proof.
  induction a as [|[k' v'] r IH]; simpl.
  - now rewrite String.eqb_refl.
  - destruct (String.eqb k k') eqn:E; simpl.
    + now rewrite String.eqb_refl.
    + now rewrite E.
Qed.

(** Setting an attribute leaves the other attributes as they are. *)
Lemma attrs_get_set_ne k k' v a :
  k <> k' -> attrs_get k' (attrs_set k v a) = attrs_get k' a.
Proof.
  intros H. induction a as [|[k1 v1] r IH]; simpl.
  - destruct (String.eqb_spec k' k) as [->|_]; [contradiction|reflexivity].
  - destruct (String.eqb_spec k k1) as [->|Hk]; simpl.
    + destruct (String.eqb_spec k' k1) as [->|_]; [contradiction|reflexivity].
    + now rewrite IH.
Qed.

Lemma attrs_set_set k v v' a :
  attrs_set k v' (attrs_set k v a) = attrs_set k v' a.
Proof.
  induction a as [|[k1 v1] r IH]; simpl.
  - now rewrite String.eqb_refl.
  - destruct (String.eqb k k1) eqn:E; simpl.
    + now rewrite String.eqb_refl.
    + now rewrite E, IH.
Qed.

Lemma attrs_of_in_context a nm at_ cs ctx p :
  ~ In a (ctx_ids ctx) -> soup_doc p = plug ctx (Tag a nm at_ cs) ->
  attrs_of a p = (Ok at_, p).
Proof.
  intros H E. eapply attrs_of_found. rewrite E.
  now apply find_tag_in_context.
Qed.

Lemma set_item_in_context a nm at_ cs ctx k v p :
  ~ In a (ctx_ids ctx) -> soup_doc p = plug ctx (Tag a nm at_ cs) ->
  set_item a k v p
  = (Ok tt, set_soup (plug ctx (Tag a nm (attrs_set k v at_) cs)) p).
Proof.
  intros H E. unfold set_item, modify. rewrite E.
  now rewrite update_tag_plug, update_tag_here.
Qed.

Lemma add_class_in_context a nm at_ cs ctx old name p :
  ~ In a (ctx_ids ctx) -> soup_doc p = plug ctx (Tag a nm at_ cs) ->
  default (AList []) (attrs_get "class" at_) = AList old ->
  add_class a name p
  = (Ok tt,
     set_soup (plug ctx (Tag a nm (attrs_set "class" (AList (old ++ [name])) at_) cs)) p).
Proof.
  intros H E Hc. unfold add_class.
  rewrite (bind_ok _ _ p at_ p) by (eapply attrs_of_in_context; eassumption).
  rewrite Hc. now apply set_item_in_context.
Qed.

Lemma set_soup_same p t : soup_doc p = t -> set_soup t p = p.
Proof. intros <-. now destruct p. Qed.

Lemma set_soup_twice t t' p : set_soup t' (set_soup t p) = set_soup t' p.
Proof. reflexivity. Qed.

(** The loop over the class names appends them all, in order, after the
    classes the anchor has. *)
Lemma add_classes_in_context a nm cs ctx names : forall at_ old p,
  ~ In a (ctx_ids ctx) -> soup_doc p = plug ctx (Tag a nm at_ cs) ->
  default (AList []) (attrs_get "class" at_) = AList old ->
  for_each names (add_class a) p
  = (Ok tt, set_soup (plug ctx (Tag a nm (with_classes old names at_) cs)) p).
Proof.
  induction names as [|x r IH]; intros at_ old p H E Hc.
  - simpl. unfold ret. now rewrite set_soup_same.
  - simpl for_each.
    erewrite bind_ok by (eapply add_class_in_context; eassumption).
    rewrite (IH (attrs_set "class" (AList (old ++ [x])) at_) (old ++ [x])%list);
      [| exact H | reflexivity | now rewrite attrs_get_set_eq].
    rewrite set_soup_twice. do 3 f_equal. unfold with_classes.
    destruct r as [|y r]; [reflexivity|].
    rewrite attrs_set_set. now rewrite <- app_assoc.
Qed.

Lemma index_after_unequal tag pre post :
  Forall (fun y => same_object y tag || node_eqb y tag = false) pre ->
  same_object tag tag = true ->
  index tag (pre ++ tag :: post) = Some (length pre).
Proof.
  intros H Hs. induction H as [|y r Hy _ IH]; simpl.
  - now rewrite Hs.
  - now rewrite Hy, IH.
Qed.

(** With an equal node further left, the index is the one of that node. *)
Lemma index_of_twin tag twin pre mid post :
  Forall (fun y => same_object y tag || node_eqb y tag = false) pre ->
  node_eqb twin tag = true ->
  index tag (pre ++ twin :: mid ++ tag :: post) = Some (length pre).
Proof.
  intros H Ht. induction H as [|y r Hy _ IH]; simpl.
  - now rewrite Ht, orb_true_r.
  - now rewrite Hy, IH.
Qed.

Lemma insert_at_after (pre : list node) x new post :
  insert_at (S (length pre)) new (pre ++ x :: post) = (pre ++ x :: new :: post)%list.
Proof.
  unfold insert_at.
  change (pre ++ x :: post)%list with (pre ++ [x] ++ post)%list.
  rewrite app_assoc.
  assert (length (pre ++ [x]) = S (length pre)) as <-.
  { rewrite length_app. simpl. lia. }
  rewrite firstn_app, skipn_app, firstn_all, skipn_all, Nat.sub_diag.
  simpl. now rewrite app_nil_r, <- app_assoc.
Qed.

Lemma not_same_object a nm at_ cs l :
  ~ In a (flat_map ids l) ->
  Forall (fun y => same_object y (Tag a nm at_ cs) = false) l.
Proof.
  intros H. apply List.Forall_forall. intros y Hy.
  destruct y as [s|i n' a' c']; [reflexivity|]. simpl.
  apply Nat.eqb_neq. intros ->. apply H. apply in_flat_map.
  exists (Tag a n' a' c'). split; [exact Hy|]. now left.
Qed.

(** The label goes right after the anchor when no node to the left of
    the anchor equals it. *)
Lemma insert_after_index_in_context a nm at_ cs fr up new p :
  ~ In a (ctx_ids (fr :: up)) -> ~ In (f_id fr) (ctx_ids up) ->
  soup_doc p = plug (fr :: up) (Tag a nm at_ cs) ->
  Forall (fun y => node_eqb y (Tag a nm at_ cs) = false) (f_left fr) ->
  insert_after_index a new p
  = (Ok tt, set_soup (plug (add_right [new] fr :: up) (Tag a nm at_ cs)) p).
Proof.
  intros Ha Hp E Hl. unfold insert_after_index.
  erewrite bind_ok by reflexivity.
  rewrite E, find_tag_in_context, find_parent_in_context by assumption.
  apply not_in_ctx_cons in Ha as [Hfr Hup].
  apply not_in_frame in Hfr as (Hi & Hleft & Hright).
  unfold fill at 1. rewrite index_after_unequal.
  - unfold modify. do 2 f_equal. simpl plug.
    rewrite update_tag_plug by assumption. f_equal.
    unfold fill at 1. rewrite update_tag_here. simpl.
    now rewrite insert_at_after.
  - pose proof (not_same_object a nm at_ cs (f_left fr) Hleft) as Hs.
    rewrite List.Forall_forall in *. intros y Hy.
    now rewrite (Hs y Hy), (Hl y Hy).
  - simpl. apply Nat.eqb_refl.
Qed.

Lemma change_to_archive_in_context a nm at_ cs ctx url p :
  ~ In a (ctx_ids ctx) -> soup_doc p = plug ctx (Tag a nm at_ cs) ->
  attrs_get "href" at_ = Some (AStr url) ->
  change_to_archive a p
  = (Ok tt,
     set_soup (plug ctx (Tag a nm (attrs_set "href" (AStr (ARCHIVE_URL url)) at_) cs)) p).
Proof.
  intros H E Hh. unfold change_to_archive.
  rewrite (bind_ok _ _ p at_ p) by (eapply attrs_of_in_context; eassumption).
  rewrite Hh. now apply set_item_in_context.
Qed.

Lemma get_opt_known opts name d :
  DEFAULT_OPTS !! name = Some d -> exists v, get_opt opts name = Ok v.
Proof.
  intros H. unfold get_opt, subscript. destruct (opts !! name) as [v|].
  - now exists v.
  - exists d. now rewrite H.
Qed.

Lemma add_right_nil fr : add_right [] fr = fr.
Proof. now destruct fr. Qed.

Lemma in_ids_plug ctx n x : In x (ids n) -> In x (ids (plug ctx n)).
Proof.
  intros H. apply list_elem_of_In. rewrite ids_plug.
  apply list_elem_of_In. apply in_or_app. now left.
Qed.

(** The steps of an annotator on an anchor of a tree whose tags are
    distinct objects, the options holding a list of class names: the
    names follow the classes of the anchor, the label follows the anchor
    provided no node to its left equals it, the [href] points to the
    archive, and nothing else changes. *)
Lemma annotation_steps_in_context
    a nm at_ cs fr up opts style text names old url p :
  NoDup (ids (soup_doc p)) ->
  soup_doc p = plug (fr :: up) (Tag a nm at_ cs) ->
  get_opt opts "classes" = Ok (VList names) ->
  default (AList []) (attrs_get "class" at_) = AList old ->
  attrs_get "href" at_ = Some (AStr url) ->
  (opt_on opts "labels" = true ->
   Forall (fun y => node_eqb y (Tag a nm (with_classes old names at_) cs) = false)
     (f_left fr)) ->
  let label :=
    if opt_on opts "labels"
    then [append text (span style (new_id (soup_doc p)))] else [] in
  annotation_steps a opts (span style) text p
  = (Ok tt,
     set_soup
       (plug (add_right label fr :: up)
          (Tag a nm
             (with_archive (opt_on opts "archive") url
                (with_classes old names at_)) cs)) p).
Proof.
  intros Hu E Hcls Hold Hhref Htwin label.
  pose proof Hu as Hu'. rewrite E in Hu'.
  apply unique_ids_in_context in Hu' as [Ha Hp].
  set (at1 := with_classes old names at_) in *.
  assert (attrs_get "href" at1 = Some (AStr url)) as Hhref1.
  { unfold at1, with_classes. destruct names; [exact Hhref|].
    now rewrite attrs_get_set_ne. }
  unfold annotation_steps.
  rewrite (bind_ok _ _ p (VList names) p) by (unfold of_result; now rewrite Hcls).
  rewrite (bind_ok _ _ p names p) by reflexivity.
  erewrite bind_ok by (eapply add_classes_in_context; eassumption).
  fold at1. set (p1 := set_soup (plug (fr :: up) (Tag a nm at1 cs)) p).
  assert (new_id (soup_doc p1) = new_id (soup_doc p)) as Hnew.
  { unfold new_id. f_equal. rewrite E. now apply max_id_plug. }
  assert (~ In a (ctx_ids (add_right label fr :: up))) as Ha'.
  { intros Hx. apply not_in_ctx_cons in Ha as [Hfr Hup].
    apply not_in_frame in Hfr as (Hi & Hl & Hr).
    change (ctx_ids (add_right label fr :: up))
      with (frame_ids (add_right label fr) ++ ctx_ids up)%list in Hx.
    apply in_app_or in Hx as [Hx|Hx]; [|contradiction].
    destruct Hx as [Hx|Hx]; [contradiction|]. simpl in Hx.
    apply in_app_or in Hx as [Hx|Hx]; [contradiction|].
    rewrite flat_map_app in Hx. apply in_app_or in Hx as [Hx|Hx];
      [|contradiction].
    unfold label in Hx. destruct (opt_on opts "labels"); [|destruct Hx].
    simpl in Hx. destruct Hx as [Hx|[]].
    apply (new_id_fresh (soup_doc p)). rewrite Hx, E.
    apply in_ids_plug. now left. }
  destruct (get_opt_known opts "labels" (VBool false) eq_refl) as [lv El].
  destruct (get_opt_known opts "archive" (VBool true) eq_refl) as [av Ea].
  rewrite (bind_ok _ _ p1 lv p1) by (unfold of_result; now rewrite El).
  assert ((if truthy lv
           then
             let* p0 := get_state in
             let soup := append text (span style (new_id (soup_doc p0))) in
             insert_after_index a soup
           else ret tt) p1
          = (Ok tt,
             set_soup (plug (add_right label fr :: up) (Tag a nm at1 cs)) p))
    as Hlabel.
  { unfold label, opt_on in *. rewrite El in *. destruct (truthy lv).
    - erewrite bind_ok by reflexivity. cbv zeta. rewrite Hnew.
      erewrite insert_after_index_in_context;
        [reflexivity | exact Ha | exact Hp | reflexivity | now apply Htwin].
    - now rewrite add_right_nil. }
  erewrite bind_ok by exact Hlabel.
  set (p2 := set_soup (plug (add_right label fr :: up) (Tag a nm at1 cs)) p).
  rewrite (bind_ok _ _ p2 av p2) by (unfold of_result; now rewrite Ea).
  unfold with_archive, opt_on. rewrite Ea. destruct (truthy av).
  - erewrite change_to_archive_in_context;
      [reflexivity | exact Ha' | reflexivity | exact Hhref1].
  - reflexivity.
Qed.

(** What [on_access_error] does to an anchor of a well-formed tree. *)
Lemma on_access_error_in_context
    a nm at_ cs fr up opts code names old url p :
  NoDup (ids (soup_doc p)) ->
  soup_doc p = plug (fr :: up) (Tag a nm at_ cs) ->
  get_opt opts "classes" = Ok (VList names) ->
  default (AList []) (attrs_get "class" at_) = AList old ->
  attrs_get "href" at_ = Some (AStr url) ->
  (opt_on opts "labels" = true ->
   Forall (fun y => node_eqb y (Tag a nm (with_classes old names at_) cs) = false)
     (f_left fr)) ->
  let label :=
    if opt_on opts "labels"
    then [append (str code) (SPAN_WARNING (new_id (soup_doc p)))] else [] in
  on_access_error a code opts p
  = (Ok tt,
     {| outside := outside p;
        soup_doc :=
          plug (add_right label fr :: up)
            (Tag a nm
               (with_archive (opt_on opts "archive") url
                  (with_classes old names at_)) cs);
        calls := AccessErrorCall a code :: calls p |}).
Proof.
  intros Hu E Hcls Hold Hhref Htwin label.
  change (on_access_error a code opts)
    with (modify (log_call (AccessErrorCall a code)) ;;;
          annotation_steps a opts (span "label-warning") (str code)).
  erewrite bind_ok by reflexivity.
  now rewrite (annotation_steps_in_context a nm at_ cs fr up opts
                 "label-warning" (str code) names old url
                 (log_call (AccessErrorCall a code) p)).
Qed.

(** What [on_connection_error] does to an anchor of a well-formed tree. *)
Lemma on_connection_error_in_context
    a nm at_ cs fr up opts names old url p :
  NoDup (ids (soup_doc p)) ->
  soup_doc p = plug (fr :: up) (Tag a nm at_ cs) ->
  get_opt opts "classes" = Ok (VList names) ->
  default (AList []) (attrs_get "class" at_) = AList old ->
  attrs_get "href" at_ = Some (AStr url) ->
  (opt_on opts "labels" = true ->
   Forall (fun y => node_eqb y (Tag a nm (with_classes old names at_) cs) = false)
     (f_left fr)) ->
  let label :=
    if opt_on opts "labels"
    then [append "not available" (SPAN_DANGER (new_id (soup_doc p)))] else [] in
  on_connection_error a opts p
  = (Ok tt,
     {| outside := outside p;
        soup_doc :=
          plug (add_right label fr :: up)
            (Tag a nm
               (with_archive (opt_on opts "archive") url
                  (with_classes old names at_)) cs);
        calls := ConnectionErrorCall a :: calls p |}).
Proof.
  intros Hu E Hcls Hold Hhref Htwin label.
  change (on_connection_error a opts)
    with (modify (log_call (ConnectionErrorCall a)) ;;;
          annotation_steps a opts (span "label-danger") "not available").
  erewrite bind_ok by reflexivity.
  now rewrite (annotation_steps_in_context a nm at_ cs fr up opts
                 "label-danger" "not available" names old url
                 (log_call (ConnectionErrorCall a) p)).
Qed.

(** X19. An anchor of a well-formed tree whose target answers with a
    status other than 200, another 2xx status included: the outcome is
    (reachable, not-ok, code), the anchor goes to
    [on_access_error] and comes out with the class names after its own,
    the label with the code right after it when labels are on and no node
    to its left equals it, and its [href] pointing to the archive when
    archive is on. *)
Lemma access_error_link_annotated
    (http_get : list (string * Q) -> string -> Q -> result http_result)
    siteurl opts cache_file a nm at_ cs fr up names old url code w' p :
  NoDup (ids (soup_doc p)) ->
  soup_doc p = plug (fr :: up) (Tag a nm at_ cs) ->
  attrs_get "href" at_ = Some (AStr url) ->
  skip_link siteurl url = Ok false ->
  get_status_code http_get url opts cache_file (outside p)
  = (Ok (classify (Response code)), w') ->
  code <> codes_ok -> code <> 0 ->
  get_opt opts "classes" = Ok (VList names) ->
  default (AList []) (attrs_get "class" at_) = AList old ->
  (opt_on opts "labels" = true ->
   Forall (fun y => node_eqb y (Tag a nm (with_classes old names at_) cs) = false)
     (f_left fr)) ->
  let label :=
    if opt_on opts "labels"
    then [append (str code) (SPAN_WARNING (new_id (soup_doc p)))] else [] in
  classify (Response code) = (Some true, Some false, Some code)
  /\ check_anchor http_get siteurl opts cache_file a p
     = (Ok tt,
        {| outside := w';
           soup_doc :=
             plug (add_right label fr :: up)
               (Tag a nm
                  (with_archive (opt_on opts "archive") url
                     (with_classes old names at_)) cs);
           calls := AccessErrorCall a code :: calls p |}).
Proof.
  intros Hu E Hhref Hskip Hget Hok Hz Hcls Hold Htwin label.
  assert (classify (Response code) = (Some true, Some false, Some code)) as Hc.
  { simpl. now apply Z.eqb_neq in Hok as ->. }
  split; [exact Hc|].
  pose proof Hu as Hu'. rewrite E in Hu'.
  apply unique_ids_in_context in Hu' as [Ha _].
  erewrite check_anchor_checked;
    [| rewrite E; now apply find_tag_in_context | exact Hhref | exact Hskip].
  unfold bind at 1, lift at 1. rewrite Hget, Hc.
  unfold dispatch. simpl tri_not. apply Z.eqb_neq in Hz as ->. simpl.
  now rewrite (on_access_error_in_context a nm at_ cs fr up opts code names old url).
Qed.

(** ** The processor at work on sample documents *)

(** C1. With the cache on, a URL whose request times out is classified
    (unreachable, unknown, no code) the first time and (unreachable,
    not-ok, no code) when it is served from the cache: the unknown success
    does not survive the round trip. The second lookup issues no request.
    In a document with two anchors to that URL, only the first anchor is
    handed to [on_connection_error]; the second is left as it was. *)
Theorem cached_timeout_loses_unknown :
  let first_ :=
    get_status_code (always Timeout) url_x cached_opts (VStr "cache.db")
      cache_ready in
  let second :=
    get_status_code (always Timeout) url_x cached_opts (VStr "cache.db")
      first_.2 in
  let p :=
    (for_each (find_all ["a"; "object"] (two_links url_x))
       (check_anchor (always Timeout) no_siteurl cached_opts (VStr "cache.db"))
       (fresh_pass cache_ready (two_links url_x))).2 in
  first_.1 = Ok (Some false, UNKNOWN, None)
  /\ second.1 = Ok (Some false, Some false, None)
  /\ requests second.2 = [(url_x, one_second)]
  /\ calls p = [ConnectionErrorCall 2]
  /\ soup_doc p
     = Tag 0 "[document]" []
         [Tag 1 "p" [] [link 2 (ARCHIVE_URL url_x); link 3 url_x]].
Proof. vm_compute. repeat split. Qed.

(** C2. A request that fails for another reason than a timeout is
    classified (unknown, not-ok, no code), and under the default options
    the anchor is not handed to [on_connection_error], the annotator
    "called on connection error": no call is made and the tree is
    unchanged. The same failure is annotated once [timeout_is_error] is
    set, and a timeout is annotated under the default options: the flag
    named after the timeout decides for the other failures only. *)
Theorem transport_failure_not_annotated_by_default :
  (get_status_code (always RequestException) url_x DEFAULT_OPTS VNone
     no_world).1 = Ok (UNKNOWN, Some false, None)
  /\ check_anchor (always RequestException) no_siteurl DEFAULT_OPTS VNone 2
       (fresh_pass no_world (one_link url_x))
     = (Ok tt,
        {| outside := {| caches := ∅; requests := [(url_x, one_second)] |};
           soup_doc := one_link url_x;
           calls := [] |})
  /\ calls (check_anchor (always RequestException) no_siteurl
              (<["timeout_is_error" := VBool true]> DEFAULT_OPTS) VNone 2
              (fresh_pass no_world (one_link url_x))).2
     = [ConnectionErrorCall 2]
  /\ calls (check_anchor (always Timeout) no_siteurl DEFAULT_OPTS VNone 2
              (fresh_pass no_world (one_link url_x))).2
     = [ConnectionErrorCall 2].
Proof. vm_compute. repeat split. Qed.

(** C4. The options [{'labels': True}] leave the timeout out. [get_opt]
    would resolve it to the default 1000, but the classifier subscripts
    the options directly: the first external link raises [KeyError], no
    request is issued and the content is not replaced. *)
Theorem missing_timeout_raises_key_error :
  get_opt labels_only_opts "timeout_duration_ms" = Ok (VInt 1000)
  /\ get_status_code (always (Response 200)) url_x labels_only_opts VNone
       no_world
     = (Raise (KeyError "timeout_duration_ms"), no_world)
  /\ content_object_init (always (Response 200)) (parse_as (one_link url_x))
       (serialize_as "out") (validated "in" labels_only_opts) no_world
     = (Raise (KeyError "timeout_duration_ms"), no_world).
Proof. vm_compute. repeat split. Qed.

(** C6, the claim as stated fails for the empty site URL. Every [href]
    starts with the empty string, yet with [SITEURL] empty the link is
    checked (a request is issued) and, its target answering 404, mutated. *)
Lemma empty_siteurl_link_is_checked :
  String.prefix EmptyString url_x = true
  /\ check_anchor (always (Response 404)) (SVal (VStr EmptyString))
       DEFAULT_OPTS VNone 2 (fresh_pass no_world (one_link url_x))
     = (Ok tt,
        {| outside := {| caches := ∅; requests := [(url_x, one_second)] |};
           soup_doc := one_link (ARCHIVE_URL url_x);
           calls := [AccessErrorCall 2 404] |}).
Proof. vm_compute. split; reflexivity. Qed.

(** C7. Two equal anchors under one parent, labels on, archive off, both
    targets answering 404. Each anchor is classified (reachable, not-ok,
    404) and handed to [on_access_error], but the label of the second
    anchor is inserted after the first anchor, which equals it, and not
    after the second one. *)
Theorem twin_anchor_label_misplaced :
  let p :=
    (for_each (find_all ["a"; "object"] (two_links url_x))
       (check_anchor (always (Response 404)) no_siteurl labels_no_archive_opts
          VNone)
       (fresh_pass no_world (two_links url_x))).2 in
  (get_status_code (always (Response 404)) url_x labels_no_archive_opts VNone
     no_world).1 = Ok (Some true, Some false, Some 404)
  /\ calls p = [AccessErrorCall 3 404; AccessErrorCall 2 404]
  /\ soup_doc p
     = Tag 0 "[document]" []
         [Tag 1 "p" []
            [link 2 url_x;
             append "404" (SPAN_WARNING 5);
             append "404" (SPAN_WARNING 4);
             link 3 url_x]].
Proof. vm_compute. repeat split. Qed.

(** The statement on access errors at a sample anchor: a link with a
    class of its own in a paragraph, followed by a full stop. *)
Example access_error_link_annotated_at_sample :
  let doc :=
    Tag 0 "[document]" []
      [Tag 1 "p" []
         [Tag 2 "a" [("class", AList ["ext"]); ("href", AStr url_x)] [];
          NavigableString "."]] in
  check_anchor (always (Response 404)) no_siteurl full_opts VNone 2
    (fresh_pass no_world doc)
  = (Ok tt,
     {| outside := {| caches := ∅; requests := [(url_x, one_second)] |};
        soup_doc :=
          Tag 0 "[document]" []
            [Tag 1 "p" []
               [Tag 2 "a" [("class", AList ["ext"; "dead"]);
                           ("href", AStr (ARCHIVE_URL url_x))] [];
                append "404" (SPAN_WARNING 3);
                NavigableString "."]];
        calls := [AccessErrorCall 2 404] |}).
Proof.
  intros doc.
  pose (fr := {| f_id := 1%nat; f_name := "p"; f_attrs := [];
                 f_left := []; f_right := [NavigableString "."] |}).
  pose (top := {| f_id := 0%nat; f_name := "[document]"; f_attrs := [];
                  f_left := []; f_right := [] |}).
  refine (proj2 (access_error_link_annotated (always (Response 404)) no_siteurl
            full_opts VNone 2 "a"
            [("class", AList ["ext"]); ("href", AStr url_x)] []
            fr [top] ["dead"] ["ext"] url_x 404
            {| caches := ∅; requests := [(url_x, one_second)] |}
            (fresh_pass no_world doc) _ _ _ _ _ _ _ _ _ _));
    try reflexivity; try discriminate.
  - apply (bool_decide_unpack _). vm_compute. reflexivity.
  - intros _. constructor.
Defined.

(** ** The general statements at sample inputs *)

(** C3 at a link whose request times out, the cache off. *)
Lemma timeout_annotated_whatever_the_flag_witness :
  check_anchor (always Timeout) no_siteurl
    (<["timeout_is_error" := VBool false]> basic_opts) VNone 2
    (fresh_pass no_world (one_link url_x))
  = check_anchor (always Timeout) no_siteurl
      (<["timeout_is_error" := VBool true]> basic_opts) VNone 2
      (fresh_pass no_world (one_link url_x)).
Proof.
  refine (proj1 (timeout_annotated_whatever_the_flag (always Timeout)
            no_siteurl basic_opts VNone 2
            (fresh_pass no_world (one_link url_x))
            2 "a" [("href", AStr url_x)] [NavigableString "x"] url_x
            {| caches := ∅; requests := [(url_x, one_second)] |}
            _ _ _ _)); vm_compute; reflexivity.
Defined.

(** C5 at a URL answering 404, looked up twice with the cache on: the
    second outcome is read from the row the first lookup stored. *)
Lemma status_code_iff_reachable_witness :
  let first_ :=
    get_status_code (always (Response 404)) url_x cached_opts
      (VStr "cache.db") cache_ready in
  let second :=
    get_status_code (always (Response 404)) url_x cached_opts
      (VStr "cache.db") first_.2 in
  requests second.2 = [(url_x, one_second)]
  /\ outcome_inv (Some true, Some false, Some 404)
  /\ cache_wf second.2.
Proof.
  intros first_ second.
  assert (cache_wf cache_ready) as H0.
  { eapply cache_wf_initialize; [apply (cache_wf_empty [])|].
    apply surjective_pairing. }
  assert (cache_wf first_.2) as H1.
  { refine (proj2 (status_code_iff_reachable (always (Response 404)) url_x
              cached_opts (VStr "cache.db") cache_ready
              (Some true, Some false, Some 404) first_.2 H0 _)).
    vm_compute. reflexivity. }
  split; [vm_compute; reflexivity|].
  refine (status_code_iff_reachable (always (Response 404)) url_x
            cached_opts (VStr "cache.db") first_.2
            (Some true, Some false, Some 404) second.2 H1 _).
  vm_compute. reflexivity.
Defined.

(** C6 as amended, at a link into the site [http://me/]. *)
Lemma internal_link_untouched_witness :
  check_anchor (always (Response 404)) (SVal (VStr "http://me/"))
    DEFAULT_OPTS VNone 2 (fresh_pass no_world (one_link "http://me/page"))
  = (Ok tt, fresh_pass no_world (one_link "http://me/page")).
Proof.
  refine (proj1 (internal_link_untouched (always (Response 404)) "http://me/"
            DEFAULT_OPTS VNone 2 (fresh_pass no_world (one_link "http://me/page"))
            2 "a" [("href", AStr "http://me/page")] [NavigableString "x"]
            "http://me/page" _ _ _ _)); reflexivity.
Defined.

(** C8 at an instance whose settings switch the validation off. *)
Lemma guard_does_nothing_witness :
  let disabled :=
    {| _content := Some "in";
       settings := <["DEADLINK_VALIDATION" := SVal (VBool false)]> ∅ |} in
  content_object_init (always (Response 404)) (parse_as (one_link url_x))
    (serialize_as "out") disabled no_world
  = (Ok disabled, no_world).
Proof.
  intros disabled.
  apply (guard_does_nothing (always (Response 404)) (parse_as (one_link url_x))
           (serialize_as "out") disabled no_world).
  right; right. exists (SVal (VBool false)). split; reflexivity.
Defined.


(** ** Further properties of the cache store *)



(** X2. Round trip through the store: once [update_cache] has written
    the triple of a URL, [get_cached_status] returns it with availability
    and success as booleans, an unknown value reading back as [False],
    and the code as written; the lookup itself changes nothing. *)
Theorem cache_round_trip url a s c path w table :
  caches w !! path = Some table ->
  let w1 := (update_cache url a s c (VStr path) w).2 in
  (update_cache url a s c (VStr path) w).1 = Ok tt
  /\ get_cached_status url (VStr path) w1
     = (Ok (Some (default false a, default false s, c)), w1).
Proof.
  intros H. pose proof (store_lookup_persistent _ _ _ H) as Hp.
  unfold update_cache, get_cached_status.
  rewrite db_path_on_disk by assumption.
  unfold bind, of_result, get_state, modify, ret. simpl. rewrite H. simpl.
  split; [reflexivity|].
  rewrite store_lookup_insert_eq by assumption. simpl.
  rewrite lookup_insert_eq.
  now destruct a as [[|]|], s as [[|]|].
Qed.

Lemma cache_round_trip_witness :
  get_cached_status url_x (VStr "cache.db")
    (update_cache url_x (Some false) UNKNOWN None (VStr "cache.db")
       cache_ready).2
  = (Ok (Some (false, false, None)),
     (update_cache url_x (Some false) UNKNOWN None (VStr "cache.db")
        cache_ready).2).
Proof.
  exact (proj2 (cache_round_trip url_x (Some false) UNKNOWN None "cache.db"
                  cache_ready ∅ eq_refl)).
Defined.



(** ** Further properties of the classifier and of the options *)

(** X4. A cache hit is served from the store alone: whatever the options
    hold, the timeout option missing included, and whatever the network
    would answer, the classifier returns the stored row, raises nothing,
    issues no request and writes nothing. *)
Theorem cache_hit_reads_the_store_only
    (http_get http_get' : list (string * Q) -> string -> Q -> result http_result)
    url opts opts' path w table a s c :
  nonempty_string path = true ->
  caches w !! path = Some table -> table !! url = Some (a, s, c) ->
  get_status_code http_get url opts (VStr path) w
  = (Ok (Some (bool_of_sql a), Some (bool_of_sql s), c), w)
  /\ get_status_code http_get' url opts' (VStr path) w
     = get_status_code http_get url opts (VStr path) w.
Proof.
  intros Hp Ht Hu.
  rewrite !(get_status_code_hit _ url _ path w table a s c) by assumption.
  now split.
Qed.

Lemma cache_hit_reads_the_store_only_witness :
  let w :=
    (update_cache url_x (Some true) (Some false) (Some 404) (VStr "cache.db")
       cache_ready).2 in
  get_status_code (always Timeout) url_x ∅ (VStr "cache.db") w
  = (Ok (Some true, Some false, Some 404), w).
Proof.
  intros w.
  refine (proj1 (cache_hit_reads_the_store_only (always Timeout)
            (always Timeout) url_x ∅ ∅ "cache.db" w
            (<[url_x := (Some 1, Some 0, Some 404)]> ∅)
            (Some 1) (Some 0) (Some 404) _ _ _)); reflexivity.
Defined.

(** X5. The timeout option must be a number that [requests.get] takes.
    With the cache off, when [timeout_duration_ms] holds [None], a string
    or a list, the division raises [TypeError], and when it holds an
    integer too large for a float, the division raises [OverflowError]:
    either way before [requests.get] is called, and nothing changes. Any
    other integer gives one call of [requests.get] with that many
    thousandths of a second as timeout, a boolean counting as the integer
    0 or 1: when the call issues the request the classifier returns the
    classified answer and the request is in the log, and when the call
    raises an exception of its own, as for a timeout that is not
    positive, the classifier raises it and nothing changes. *)
Theorem ill_typed_timeout_raises
    (http_get : list (string * Q) -> string -> Q -> result http_result)
    url opts cache_file w v :
  truthy cache_file = false ->
  opts !! "timeout_duration_ms" = Some v ->
  let run := get_status_code http_get url opts cache_file w in
  let requested t :=
    match http_get (requests w) url t with
    | Ok r => run = (Ok (classify r), add_request url t w)
    | Raise e => run = (Raise e, w)
    end in
  match v with
  | VInt n =>
      if Z.abs n <? float_limit then requested (n # 1000)%Q
      else run = (Raise OverflowError, w)
  | VBool b => requested ((if b then 1 else 0) # 1000)%Q
  | VNone | VStr _ | VList _ => run = (Raise TypeError, w)
  end.
Proof.
  intros Hc Hms run requested. subst run requested.
  destruct v as [|b|n|s|l].
  - unfold get_status_code, bind, of_result, subscript. now rewrite Hc, Hms.
  - rewrite (get_status_code_no_cache http_get url opts cache_file w
               (VBool b) ((if b then 1 else 0) # 1000)%Q) by easy.
    now destruct (http_get _ _ _).
  - destruct (Z.abs n <? float_limit) eqn:En.
    + rewrite (get_status_code_no_cache http_get url opts cache_file w
                 (VInt n) (n # 1000)%Q Hc Hms).
      * now destruct (http_get _ _ _).
      * simpl. now rewrite En.
    + unfold get_status_code, bind, of_result, subscript.
      rewrite Hc, Hms. simpl. now rewrite En.
  - unfold get_status_code, bind, of_result, subscript. now rewrite Hc, Hms.
  - unfold get_status_code, bind, of_result, subscript. now rewrite Hc, Hms.
Qed.

(** X5 at the string [1000], at the integer 2^1024 and at [False]: the
    first raises [TypeError], the second [OverflowError], and the third
    the [ValueError] of a [requests.get] that refuses the timeout 0. *)
Lemma ill_typed_timeout_raises_witness :
  get_status_code (always (Response 200)) url_x
    (<["timeout_duration_ms" := VStr "1000"]> ∅) VNone no_world
  = (Raise TypeError, no_world)
  /\ get_status_code (always (Response 200)) url_x
       (<["timeout_duration_ms" := VInt (2 ^ 1024)]> ∅) VNone no_world
     = (Raise OverflowError, no_world)
  /\ get_status_code positive_timeouts_only url_x
       (<["timeout_duration_ms" := VBool false]> ∅) VNone no_world
     = (Raise ValueError, no_world).
Proof.
  split; [|split].
  - exact (ill_typed_timeout_raises (always (Response 200)) url_x
             (<["timeout_duration_ms" := VStr "1000"]> ∅) VNone no_world
             (VStr "1000") eq_refl eq_refl).
  - exact (ill_typed_timeout_raises (always (Response 200)) url_x
             (<["timeout_duration_ms" := VInt (2 ^ 1024)]> ∅) VNone no_world
             (VInt (2 ^ 1024)) eq_refl eq_refl).
  - exact (ill_typed_timeout_raises positive_timeouts_only url_x
             (<["timeout_duration_ms" := VBool false]> ∅) VNone no_world
             (VBool false) eq_refl eq_refl).
Defined.

(** X6. [get_opt] resolves each name on its own: a value given by the
    user wins, a recognized name that the user left out gets its default
    and never raises, and adding or removing any other key changes
    nothing; a name that is neither given nor recognized raises
    [KeyError]. *)
Theorem get_opt_resolves_per_key opts name :
  (forall v, opts !! name = Some v -> get_opt opts name = Ok v)
  /\ (forall d, opts !! name = None -> DEFAULT_OPTS !! name = Some d ->
        get_opt opts name = Ok d)
  /\ (opts !! name = None -> DEFAULT_OPTS !! name = None ->
        get_opt opts name = Raise (KeyError name))
  /\ (forall k v, k <> name ->
        get_opt (<[k := v]> opts) name = get_opt opts name
        /\ get_opt (delete k opts) name = get_opt opts name)
  /\ (In name ["archive"; "classes"; "labels"; "timeout_duration_ms";
               "timeout_is_error"; "cache_file"] ->
      exists v, get_opt opts name = Ok v).
Proof.
  unfold get_opt, subscript. repeat split.
  - now intros v ->.
  - now intros d -> ->.
  - now intros -> ->.
  - now rewrite lookup_insert_ne.
  - now rewrite lookup_delete_ne.
  - intros H. destruct (opts !! name) as [v|]; [now exists v|].
    simpl in H.
    destruct H as [<-|[<-|[<-|[<-|[<-|[<-|[]]]]]]]; vm_compute; eauto.
Qed.

(** ** Further properties of the annotator *)

Lemma unique_id_not_in_context a nm at_ cs ctx :
  NoDup (ids (plug ctx (Tag a nm at_ cs))) -> ~ In a (ctx_ids ctx).
Proof.
  intros H. rewrite ids_plug in H.
  apply NoDup_app in H as (_ & Ha & _).
  intros Hx. apply (Ha a).
  - apply list_elem_of_In. now left.
  - now apply list_elem_of_In.
Qed.

(** X7. The loop [for cls in classes: add_class(anchor, cls)] on a tag of
    a tree whose tags are distinct objects: the names are appended to the
    class list of the tag in their order, duplicates included (a tag
    without class attribute gets one); no other attribute of the tag and
    no other part of the tree changes, and nothing outside the tree. *)
Theorem add_class_appends_in_order a nm at_ cs ctx old names p :
  NoDup (ids (soup_doc p)) ->
  soup_doc p = plug ctx (Tag a nm at_ cs) ->
  default (AList []) (attrs_get "class" at_) = AList old ->
  exists at',
    for_each names (add_class a) p
    = (Ok tt, set_soup (plug ctx (Tag a nm at' cs)) p)
    /\ (names <> [] -> attrs_get "class" at' = Some (AList (old ++ names)))
    /\ (names = [] -> at' = at_)
    /\ (forall k, k <> "class" -> attrs_get k at' = attrs_get k at_).
Proof.
  intros Hu E Hold. exists (with_classes old names at_).
  rewrite E in Hu. apply unique_id_not_in_context in Hu.
  split; [now apply add_classes_in_context|].
  unfold with_classes. destruct names as [|x r]; repeat split.
  - intros H. now contradiction H.
  - intros _. apply attrs_get_set_eq.
  - discriminate.
  - intros k Hk. apply attrs_get_set_ne. congruence.
Qed.

Lemma add_class_appends_in_order_witness :
  exists at',
    for_each ["dead"; "dead"] (add_class 2)
      (fresh_pass no_world (one_link url_x))
    = (Ok tt,
       set_soup
         (Tag 0 "[document]" []
            [Tag 1 "p" [] [Tag 2 "a" at' [NavigableString "x"]]])
         (fresh_pass no_world (one_link url_x)))
    /\ attrs_get "class" at' = Some (AList ["dead"; "dead"])
    /\ attrs_get "href" at' = Some (AStr url_x).
Proof.
  destruct (add_class_appends_in_order 2 "a" [("href", AStr url_x)]
              [NavigableString "x"]
              [ {| f_id := 1%nat; f_name := "p"; f_attrs := [];
                   f_left := []; f_right := [] |};
                {| f_id := 0%nat; f_name := "[document]"; f_attrs := [];
                   f_left := []; f_right := [] |} ]
              [] ["dead"; "dead"] (fresh_pass no_world (one_link url_x)))
    as (at' & Hrun & Hclass & _ & Hother).
  - apply (bool_decide_unpack _). vm_compute. reflexivity.
  - reflexivity.
  - reflexivity.
  - exists at'. split; [exact Hrun|]. split.
    + apply Hclass. discriminate.
    + rewrite Hother by discriminate. reflexivity.
Defined.

(** X8. [change_to_archive] on a tag of a tree whose tags are distinct
    objects: the [href] becomes the archive prefix followed by the former
    [href] and nothing else changes; a second call prefixes the result
    again, so the function is not idempotent; on a tag without [href] it
    raises [KeyError] and changes nothing. *)
Theorem change_to_archive_prefixes a nm at_ cs ctx p :
  NoDup (ids (soup_doc p)) ->
  soup_doc p = plug ctx (Tag a nm at_ cs) ->
  (forall url, attrs_get "href" at_ = Some (AStr url) ->
     let at1 := attrs_set "href" (AStr (ARCHIVE_URL url)) at_ in
     let at2 := attrs_set "href" (AStr (ARCHIVE_URL (ARCHIVE_URL url))) at_ in
     change_to_archive a p = (Ok tt, set_soup (plug ctx (Tag a nm at1 cs)) p)
     /\ (change_to_archive a ;;; change_to_archive a) p
        = (Ok tt, set_soup (plug ctx (Tag a nm at2 cs)) p)
     /\ (forall k, k <> "href" -> attrs_get k at1 = attrs_get k at_))
  /\ (attrs_get "href" at_ = None ->
      change_to_archive a p = (Raise (KeyError "href"), p)).
Proof.
  intros Hu E. rewrite E in Hu. apply unique_id_not_in_context in Hu.
  split.
  - intros url Hh. cbv zeta. split; [|split].
    + now apply change_to_archive_in_context.
    + erewrite bind_ok
        by (eapply change_to_archive_in_context; eassumption).
      erewrite change_to_archive_in_context;
        [| exact Hu | reflexivity | apply attrs_get_set_eq].
      now rewrite set_soup_twice, attrs_set_set.
    + intros k Hk. apply attrs_get_set_ne. congruence.
  - intros Hh. unfold change_to_archive.
    rewrite (bind_ok _ _ p at_ p) by (eapply attrs_of_in_context; eassumption).
    now rewrite Hh.
Qed.

Lemma change_to_archive_prefixes_witness :
  (change_to_archive 2 ;;; change_to_archive 2)
    (fresh_pass no_world (one_link url_x))
  = (Ok tt,
     fresh_pass no_world
       (one_link "http://web.archive.org/web/*/http://web.archive.org/web/*/http://x/")).
Proof.
  refine (proj1 (proj2 (proj1 (change_to_archive_prefixes 2 "a"
            [("href", AStr url_x)] [NavigableString "x"]
            [ {| f_id := 1%nat; f_name := "p"; f_attrs := [];
                 f_left := []; f_right := [] |};
              {| f_id := 0%nat; f_name := "[document]"; f_attrs := [];
                 f_left := []; f_right := [] |} ]
            (fresh_pass no_world (one_link url_x)) _ _) url_x eq_refl))).
  - apply (bool_decide_unpack _). vm_compute. reflexivity.
  - reflexivity.
Defined.

Lemma opt_on_insert_ne opts k v name :
  k <> name -> opt_on (<[k := v]> opts) name = opt_on opts name.
Proof. intros H. unfold opt_on. now rewrite get_opt_insert_ne. Qed.

(** The annotators only see the class option through its iteration. *)
Lemma on_connection_error_classes_iterated a opts v names p :
  get_opt opts "classes" = Ok v -> iterate v = Ok names ->
  on_connection_error a opts p
  = on_connection_error a (<["classes" := VList names]> opts) p.
Proof.
  intros Hv Hn. unfold on_connection_error, bind, of_result, modify.
  rewrite Hv, Hn. unfold get_opt at 3. rewrite lookup_insert_eq. simpl.
  now rewrite !get_opt_insert_ne by discriminate.
Qed.

(** X9. [on_connection_error] on an anchor of a tree whose tags are
    distinct objects. The names that iterating the class option yields
    (the elements of a list, the characters of a string) follow the
    classes of the anchor; when labels are on and no node to the left of
    the anchor equals it, a danger span with the text [not available]
    comes right after the anchor; when archive is on, the [href] gets the
    archive prefix. The rest of the tree and the world outside stay as
    they were, and the call is recorded. *)
Theorem on_connection_error_annotates
    a nm at_ cs fr up opts v names old url p :
  NoDup (ids (soup_doc p)) ->
  soup_doc p = plug (fr :: up) (Tag a nm at_ cs) ->
  get_opt opts "classes" = Ok v -> iterate v = Ok names ->
  default (AList []) (attrs_get "class" at_) = AList old ->
  attrs_get "href" at_ = Some (AStr url) ->
  (opt_on opts "labels" = true ->
   Forall (fun y => node_eqb y (Tag a nm (with_classes old names at_) cs) = false)
     (f_left fr)) ->
  let label :=
    if opt_on opts "labels"
    then [Tag (new_id (soup_doc p)) "span"
            [("class", AList ["label"; "label-danger"])]
            [NavigableString "not available"]]
    else [] in
  on_connection_error a opts p
  = (Ok tt,
     {| outside := outside p;
        soup_doc :=
          plug (add_right label fr :: up)
            (Tag a nm
               (with_archive (opt_on opts "archive") url
                  (with_classes old names at_)) cs);
        calls := ConnectionErrorCall a :: calls p |}).
Proof.
  intros Hu E Hv Hn Hold Hhref Htwin label.
  rewrite (on_connection_error_classes_iterated a opts v names p Hv Hn).
  rewrite (on_connection_error_in_context a nm at_ cs fr up
             (<["classes" := VList names]> opts) names old url p);
    try assumption.
  - unfold label. now rewrite !opt_on_insert_ne by discriminate.
  - unfold get_opt. now rewrite lookup_insert_eq.
  - rewrite opt_on_insert_ne by discriminate. exact Htwin.
Qed.

Lemma on_connection_error_annotates_witness :
  on_connection_error 2
    (<["classes" := VStr "ab"]> (<["labels" := VBool true]> ∅))
    (fresh_pass no_world (one_link url_x))
  = (Ok tt,
     {| outside := no_world;
        soup_doc :=
          Tag 0 "[document]" []
            [Tag 1 "p" []
               [Tag 2 "a" [("href", AStr (ARCHIVE_URL url_x));
                           ("class", AList ["a"; "b"])]
                  [NavigableString "x"];
                Tag 3 "span" [("class", AList ["label"; "label-danger"])]
                  [NavigableString "not available"]]];
        calls := [ConnectionErrorCall 2] |}).
Proof.
  refine (on_connection_error_annotates 2 "a" [("href", AStr url_x)]
            [NavigableString "x"]
            {| f_id := 1%nat; f_name := "p"; f_attrs := [];
               f_left := []; f_right := [] |}
            [ {| f_id := 0%nat; f_name := "[document]"; f_attrs := [];
                 f_left := []; f_right := [] |} ]
            (<["classes" := VStr "ab"]> (<["labels" := VBool true]> ∅))
            (VStr "ab") ["a"; "b"] [] url_x
            (fresh_pass no_world (one_link url_x)) _ _ _ _ _ _ _);
    try reflexivity.
  - apply (bool_decide_unpack _). vm_compute. reflexivity.
  - intros _. constructor.
Defined.

(** X10. A class option that cannot be iterated ([None], a boolean or an
    integer) makes both annotators raise [TypeError] as soon as they are
    called: the tree and the world outside are left as they were. *)
Theorem non_iterable_classes_raise a code opts v p :
  get_opt opts "classes" = Ok v ->
  (v = VNone \/ (exists b, v = VBool b) \/ (exists n, v = VInt n)) ->
  on_access_error a code opts p
  = (Raise TypeError, log_call (AccessErrorCall a code) p)
  /\ on_connection_error a opts p
     = (Raise TypeError, log_call (ConnectionErrorCall a) p).
Proof.
  intros Hv H.
  unfold on_access_error, on_connection_error, bind, of_result, modify.
  rewrite Hv. destruct H as [->|[[b ->]|[n ->]]]; now split.
Qed.

Lemma non_iterable_classes_raise_witness :
  on_access_error 2 404 (<["classes" := VNone]> ∅)
    (fresh_pass no_world (one_link url_x))
  = (Raise TypeError,
     {| outside := no_world; soup_doc := one_link url_x;
        calls := [AccessErrorCall 2 404] |}).
Proof.
  refine (proj1 (non_iterable_classes_raise 2 404 (<["classes" := VNone]> ∅)
                   VNone (fresh_pass no_world (one_link url_x)) _ _)).
  - reflexivity.
  - now left.
Defined.

(** ** Further properties of the document processor *)

(** X11. A tag without [href], or whose [href] does not start with
    [http], is passed over before the site URL and the options are looked
    at: whatever they hold, ill-typed values included, its turn of the
    loop raises nothing and leaves the tree, the caches, the request log
    and the call log as they were. *)
Theorem non_http_link_untouched
    (http_get : list (string * Q) -> string -> Q -> result http_result)
    siteurl opts cache_file anchor p i nm at_ cs :
  find_tag anchor (soup_doc p) = Some (Tag i nm at_ cs) ->
  (attrs_get "href" at_ = None
   \/ exists url, attrs_get "href" at_ = Some (AStr url)
                  /\ String.prefix "http" url = false) ->
  check_anchor http_get siteurl opts cache_file anchor p = (Ok tt, p).
Proof.
  intros Hf H. apply check_anchor_passed_over.
  exists i, nm, at_, cs. split; [exact Hf|].
  destruct H as [H|(url & Hh & Hp)]; [now left|].
  right. exists url. split; [exact Hh|]. unfold skip_link. now rewrite Hp.
Qed.

Lemma non_http_link_untouched_witness :
  check_anchor (always Timeout) (SVal (VInt 5)) ∅ (VInt 7) 2
    (fresh_pass no_world (one_link "ftp://x/"))
  = (Ok tt, fresh_pass no_world (one_link "ftp://x/")).
Proof.
  refine (non_http_link_untouched (always Timeout) (SVal (VInt 5)) ∅ (VInt 7)
            2 (fresh_pass no_world (one_link "ftp://x/"))
            2 "a" [("href", AStr "ftp://x/")] [NavigableString "x"] _ _).
  - reflexivity.
  - right. exists "ftp://x/". split; reflexivity.
Defined.

(** X12. The site URL must be a string. With a [SITEURL] that is true
    but not a string (a number, [True], a non-empty list or dictionary)
    the first link whose [href] starts with [http] raises [TypeError]
    before it is classified: no request is issued and nothing changes. A
    false [SITEURL] of any type ([None], 0, an empty list) exempts no link
    and raises nothing. *)
Theorem ill_typed_siteurl_raises
    (http_get : list (string * Q) -> string -> Q -> result http_result)
    siteurl opts cache_file anchor p i nm at_ cs url :
  find_tag anchor (soup_doc p) = Some (Tag i nm at_ cs) ->
  attrs_get "href" at_ = Some (AStr url) ->
  String.prefix "http" url = true ->
  (forall s, siteurl <> SVal (VStr s)) ->
  (setting_truthy siteurl = true ->
   check_anchor http_get siteurl opts cache_file anchor p
   = (Raise TypeError, p))
  /\ (setting_truthy siteurl = false ->
      check_anchor http_get siteurl opts cache_file anchor p
      = check_anchor http_get (SVal (VStr EmptyString)) opts cache_file
          anchor p).
Proof.
  intros Hf Hh Hp Hs. unfold check_anchor.
  rewrite !(bind_ok _ _ p at_ p) by (eapply attrs_of_found; eassumption).
  rewrite Hh. simpl. unfold of_result at 1 3. unfold bind at 1 3.
  unfold skip_link. rewrite Hp. simpl. split; intros Ht; rewrite Ht.
  - destruct siteurl as [[| | |s|]|]; try reflexivity.
    now contradiction (Hs s).
  - reflexivity.
Qed.

Lemma ill_typed_siteurl_raises_witness :
  check_anchor (always Timeout) (SVal (VInt 5)) basic_opts VNone 2
    (fresh_pass no_world (one_link url_x))
  = (Raise TypeError, fresh_pass no_world (one_link url_x)).
Proof.
  refine (proj1 (ill_typed_siteurl_raises (always Timeout) (SVal (VInt 5))
            basic_opts VNone 2 (fresh_pass no_world (one_link url_x))
            2 "a" [("href", AStr url_x)] [NavigableString "x"] url_x
            _ _ _ _) _); try reflexivity.
  intros s. discriminate.
Defined.

Lemma dispatch_changes_with_a_call anchor opts o p :
  (dispatch anchor opts o p).2 = p
  \/ exists c, calls (dispatch anchor opts o p).2 = c :: calls p.
Proof.
  destruct o as [[avail success] code]. unfold dispatch.
  destruct (tri_not avail).
  - unfold bind, of_result.
    destruct (get_opt opts "timeout_is_error") as [v|e]; [|now left].
    destruct (truthy v || is_unknown success); [|now left].
    right. eexists. apply on_connection_error_calls.
  - destruct code as [c|]; [|now left].
    destruct (tri_not success && negb (c =? 0)); [|now left].
    right. eexists. apply on_access_error_calls.
Qed.

Lemma check_anchor_changes_with_a_call
    (http_get : list (string * Q) -> string -> Q -> result http_result)
    siteurl opts cache_file anchor p :
  let p' := (check_anchor http_get siteurl opts cache_file anchor p).2 in
  (calls p' = calls p /\ soup_doc p' = soup_doc p)
  \/ exists c, calls p' = c :: calls p.
Proof.
  unfold check_anchor, bind.
  pose proof (attrs_of_state anchor p) as Hst.
  destruct (attrs_of anchor p) as [[at_|e] p1]; simpl in Hst; subst p1;
    [|now left].
  destruct (attrs_get "href" at_) as [href|]; [|now left].
  unfold of_result.
  destruct (as_str href) as [url|e]; [|now left].
  destruct (skip_link siteurl url) as [[|]|e]; [now left| |now left].
  pose proof (lift_calls (get_status_code http_get url opts cache_file) p)
    as Hc.
  pose proof (lift_soup (get_status_code http_get url opts cache_file) p)
    as Hs.
  destruct (lift (get_status_code http_get url opts cache_file) p)
    as [[o|e] p2]; simpl in Hc, Hs; [|now left].
  destruct (dispatch_changes_with_a_call anchor opts o p2) as [->|[c H]].
  - now left.
  - right. exists c. now rewrite H, Hc.
Qed.

Lemma pass_calls_grow
    (http_get : list (string * Q) -> string -> Q -> result http_result)
    siteurl opts cache_file l : forall p,
  let p' := (for_each l (check_anchor http_get siteurl opts cache_file) p).2 in
  exists new, calls p' = (new ++ calls p)%list
              /\ (new = [] -> soup_doc p' = soup_doc p).
Proof.
  induction l as [|x r IH]; intros p; simpl.
  - now exists [].
  - unfold bind.
    pose proof (check_anchor_changes_with_a_call http_get siteurl opts
                  cache_file x p) as Hx.
    destruct (check_anchor http_get siteurl opts cache_file x p)
      as [[[]|e] p1]; simpl in Hx.
    + destruct (IH p1) as (new & Hn & Hs).
      destruct Hx as [[Hc Ht]|[c Hc]].
      * exists new. rewrite Hn, Hc. split; [reflexivity|].
        intros E. now rewrite (Hs E).
      * exists (new ++ [c])%list. rewrite Hn, Hc, <- app_assoc.
        split; [reflexivity|]. intros E. now destruct new.
    + simpl. destruct Hx as [[Hc Ht]|[c Hc]].
      * now exists [].
      * exists [c]. split; [exact Hc|discriminate].
Qed.

(** X13. The tree is changed by the annotators only: a loop over any
    list of anchors in which neither [on_connection_error] nor
    [on_access_error] is called, whatever was requested, cached or raised
    on the way, leaves the tree as it was. *)
Theorem tree_changes_only_through_annotators
    (http_get : list (string * Q) -> string -> Q -> result http_result)
    siteurl opts cache_file l p :
  let p' := (for_each l (check_anchor http_get siteurl opts cache_file) p).2 in
  calls p' = calls p -> soup_doc p' = soup_doc p.
Proof.
  intros p' H.
  destruct (pass_calls_grow http_get siteurl opts cache_file l p)
    as (new & Hn & Hs).
  apply Hs. fold p' in Hn. rewrite H in Hn.
  destruct new as [|c new]; [reflexivity|].
  apply (f_equal (@length call)) in Hn. rewrite length_app in Hn.
  simpl in Hn. lia.
Qed.

Lemma tree_changes_only_through_annotators_witness :
  soup_doc
    (for_each [2%nat; 3%nat]
       (check_anchor (always (Response 200)) no_siteurl basic_opts VNone)
       (fresh_pass no_world (two_links url_x))).2
  = two_links url_x.
Proof.
  apply (tree_changes_only_through_annotators (always (Response 200))
           no_siteurl basic_opts VNone [2%nat; 3%nat]
           (fresh_pass no_world (two_links url_x))).
  vm_compute. reflexivity.
Defined.

Lemma get_status_code_requests
    (http_get : list (string * Q) -> string -> Q -> result http_result)
    url opts cache_file w :
  let w' := (get_status_code http_get url opts cache_file w).2 in
  requests w' = requests w
  \/ exists ms t, opts !! "timeout_duration_ms" = Some ms
                  /\ div_ms ms = Ok t
                  /\ requests w' = (url, t) :: requests w.
Proof.
  unfold get_status_code, get_cached_status, update_cache, requests_get,
    bind, of_result, get_state, modify, subscript, ret, raise.
  repeat (case_match; simplify_eq; simpl in * );
    try (now left); right; eauto.
Qed.

Lemma check_anchor_requests
    (http_get : list (string * Q) -> string -> Q -> result http_result)
    siteurl opts cache_file anchor p :
  let p' := (check_anchor http_get siteurl opts cache_file anchor p).2 in
  requests (outside p') = requests (outside p)
  \/ exists url ms t,
       String.prefix "http" url = true
       /\ skip_link siteurl url = Ok false
       /\ opts !! "timeout_duration_ms" = Some ms /\ div_ms ms = Ok t
       /\ requests (outside p') = (url, t) :: requests (outside p).
Proof.
  unfold check_anchor, bind.
  pose proof (attrs_of_state anchor p) as Hst.
  destruct (attrs_of anchor p) as [[at_|e] p1]; simpl in Hst; subst p1;
    [|now left].
  destruct (attrs_get "href" at_) as [href|]; [|now left].
  unfold of_result.
  destruct (as_str href) as [url|e]; [|now left].
  destruct (skip_link siteurl url) as [[|]|e] eqn:Hk; [now left| |now left].
  assert (String.prefix "http" url = true) as Hp.
  { unfold skip_link in Hk.
    destruct (String.prefix "http" url); [reflexivity|discriminate]. }
  pose proof (get_status_code_requests http_get url opts cache_file (outside p))
    as Hr.
  unfold lift.
  destruct (get_status_code http_get url opts cache_file (outside p))
    as [[o|e] w']; simpl in Hr |- *.
  - rewrite dispatch_outside. simpl.
    destruct Hr as [Hr|(ms & t & Hms & Ht & Hr)]; [now left|].
    right. exists url, ms, t. repeat split; assumption.
  - destruct Hr as [Hr|(ms & t & Hms & Ht & Hr)]; [now left|].
    right. exists url, ms, t. repeat split; assumption.
Qed.

(** X14. What a loop over the anchors asks of the network: at most one
    request per anchor (no retry), only for URLs that start with [http]
    and that the site URL does not exempt, each with the configured
    timeout divided by 1000; when the timeout option is missing or not a
    number no request is issued at all. The request log only grows. *)
Theorem pass_requests
    (http_get : list (string * Q) -> string -> Q -> result http_result)
    siteurl opts cache_file l : forall p,
  let p' := (for_each l (check_anchor http_get siteurl opts cache_file) p).2 in
  exists new,
    requests (outside p') = (new ++ requests (outside p))%list
    /\ (length new <= length l)%nat
    /\ Forall (fun r =>
                 String.prefix "http" r.1 = true
                 /\ skip_link siteurl r.1 = Ok false
                 /\ exists ms, opts !! "timeout_duration_ms" = Some ms
                               /\ div_ms ms = Ok r.2) new.
Proof.
  induction l as [|x r IH]; intros p; simpl.
  - exists []. split; [reflexivity|]. split; [simpl; lia|constructor].
  - unfold bind.
    pose proof (check_anchor_requests http_get siteurl opts cache_file x p)
      as Hx.
    destruct (check_anchor http_get siteurl opts cache_file x p)
      as [[[]|e] p1]; simpl in Hx.
    + destruct (IH p1) as (new & Hn & Hl & Hf).
      destruct Hx as [Hx|(url & ms & t & Hp & Hk & Hms & Ht & Hx)].
      * exists new. rewrite Hn, Hx.
        split; [reflexivity|]. split; [lia|exact Hf].
      * exists (new ++ [(url, t)])%list. rewrite Hn, Hx, <- app_assoc.
        split; [reflexivity|]. split.
        -- rewrite length_app. simpl. lia.
        -- apply Forall_app. split; [exact Hf|].
           constructor; [|constructor]. simpl. eauto.
    + simpl. destruct Hx as [Hx|(url & ms & t & Hp & Hk & Hms & Ht & Hx)].
      * exists []. split; [exact Hx|]. split; [simpl; lia|constructor].
      * exists [(url, t)]. split; [exact Hx|]. split; [simpl; lia|].
        constructor; [|constructor]. simpl. eauto.
Qed.

Lemma rows_kept_refl w : rows_kept w w.
Proof. intros path table url r Ht Hu. now exists table. Qed.

Lemma rows_kept_trans w1 w2 w3 :
  rows_kept w1 w2 -> rows_kept w2 w3 -> rows_kept w1 w3.
Proof.
  intros H12 H23 path table url r Ht Hu.
  destruct (H12 path table url r Ht Hu) as (table' & Ht' & Hu').
  exact (H23 path table' url r Ht' Hu').
Qed.

Lemma rows_kept_add_request url t w : rows_kept w (add_request url t w).
Proof. intros path table u r Ht Hu. now exists table. Qed.

Lemma rows_kept_initialize cache_file w :
  rows_kept w (initialize_cache cache_file w).2.
Proof.
  unfold initialize_cache, bind, of_result, modify.
  destruct (db_path cache_file) as [[p|]|e]; [|apply rows_kept_refl..]. simpl.
  destruct (caches w !! p) eqn:E; [apply rows_kept_refl|].
  intros path table u r Ht Hu. exists table. split; [|exact Hu]. simpl.
  rewrite store_lookup_insert_ne; [exact Ht|]. intros ->. congruence.
Qed.

(** The three ways the classifier can leave the world: as it was, with
    one more request, or with one more request and its row in a table
    that had no row for the URL. *)
Lemma get_status_code_world
    (http_get : list (string * Q) -> string -> Q -> result http_result)
    url opts cache_file w :
  let w' := (get_status_code http_get url opts cache_file w).2 in
  w' = w
  \/ (exists t, truthy cache_file = false /\ w' = add_request url t w)
  \/ (exists t path table r,
        cache_file = VStr path /\ caches w !! path = Some table
        /\ table !! url = None
        /\ w' = {| caches := <[path := <[url := r]> table]> (caches w);
                   requests := (url, t) :: requests w |}).
Proof.
  unfold get_status_code, get_cached_status, update_cache, requests_get,
    bind, of_result, get_state, modify, subscript, ret, raise, db_path.
  repeat (case_match; simplify_eq; simpl in * );
    try (now left);
    try (right; left; eexists; split; [first [reflexivity|eassumption]|reflexivity]).
  all: right; right; do 4 eexists; repeat split; eauto.
Qed.

Lemma rows_kept_get_status_code
    (http_get : list (string * Q) -> string -> Q -> result http_result)
    url opts cache_file w :
  rows_kept w (get_status_code http_get url opts cache_file w).2.
Proof.
  destruct (get_status_code_world http_get url opts cache_file w)
    as [->|[(t & _ & ->)|(t & path & table & r & _ & Ht & Hu & ->)]].
  - apply rows_kept_refl.
  - apply rows_kept_add_request.
  - intros q table' u r' Ht' Hu'. simpl.
    pose proof (store_lookup_persistent _ _ _ Ht) as Hp.
    destruct (decide (path = q)) as [<-|Hne].
    + rewrite Ht in Ht'. injection Ht' as <-.
      exists (<[url := r]> table).
      rewrite store_lookup_insert_eq by exact Hp.
      split; [reflexivity|].
      rewrite lookup_insert_ne; [exact Hu'|]. intros ->. congruence.
    + exists table'. rewrite store_lookup_insert_ne by exact Hne. now split.
Qed.

Lemma check_anchor_outside
    (http_get : list (string * Q) -> string -> Q -> result http_result)
    siteurl opts cache_file anchor p :
  let p' := (check_anchor http_get siteurl opts cache_file anchor p).2 in
  outside p' = outside p
  \/ exists url,
       outside p' = (get_status_code http_get url opts cache_file (outside p)).2.
Proof.
  unfold check_anchor, bind.
  pose proof (attrs_of_state anchor p) as Hst.
  destruct (attrs_of anchor p) as [[at_|e] p1]; simpl in Hst; subst p1;
    [|now left].
  destruct (attrs_get "href" at_) as [href|]; [|now left].
  unfold of_result.
  destruct (as_str href) as [url|e]; [|now left].
  destruct (skip_link siteurl url) as [[|]|e]; [now left| |now left].
  right. exists url. unfold lift.
  destruct (get_status_code http_get url opts cache_file (outside p))
    as [[o|e] w']; simpl; [|reflexivity].
  now rewrite dispatch_outside.
Qed.

(** What the classifier keeps true of the world, a loop over the anchors
    keeps true. *)
Lemma pass_outside_invariant (P : world -> Prop)
    (http_get : list (string * Q) -> string -> Q -> result http_result)
    siteurl opts cache_file :
  (forall url w, P w -> P (get_status_code http_get url opts cache_file w).2) ->
  forall l p,
    P (outside p) ->
    P (outside (for_each l (check_anchor http_get siteurl opts cache_file) p).2).
Proof.
  intros HP. induction l as [|x r IH]; intros p Hp; [exact Hp|].
  simpl. unfold bind.
  assert (P (outside (check_anchor http_get siteurl opts cache_file x p).2))
    as Hx.
  { destruct (check_anchor_outside http_get siteurl opts cache_file x p)
      as [->|[url ->]]; [exact Hp | now apply HP]. }
  destruct (check_anchor http_get siteurl opts cache_file x p) as [[[]|e] p1];
    simpl in Hx; [now apply IH | exact Hx].
Qed.

(** X15. The cache has no expiry and no refresh: nothing the processor
    does removes a row or changes it. Every row that a cache file holds
    before a run of [content_object_init] is there, unchanged, after the
    run, whatever the network answers and whether the run returns or
    raises. *)
Theorem cache_rows_are_permanent
    (http_get : list (string * Q) -> string -> Q -> result http_result)
    (parse : string -> node) (serialize : node -> string) instance w :
  rows_kept w (content_object_init http_get parse serialize instance w).2.
Proof.
  unfold content_object_init.
  destruct (_content instance) as [html|]; [|apply rows_kept_refl].
  destruct (negb (user_enabled instance "DEADLINK_VALIDATION"));
    [apply rows_kept_refl|].
  unfold bind at 1, of_result.
  destruct (as_dict _) as [opts|e]; [|apply rows_kept_refl].
  unfold bind.
  set (cache_file := default VNone (opts !! "cache_file")).
  assert (rows_kept w
    ((if truthy cache_file then initialize_cache cache_file else ret tt) w).2)
    as Hi.
  { destruct (truthy cache_file);
      [apply rows_kept_initialize | apply rows_kept_refl]. }
  destruct ((if truthy cache_file then initialize_cache cache_file else ret tt) w)
    as [[[]|e] w1]; simpl in Hi; [|exact Hi].
  pose proof (pass_outside_invariant (rows_kept w) http_get
                (default (SVal (VStr EmptyString))
                   (settings instance !! "SITEURL"))
                opts cache_file
                (fun url w2 H =>
                   rows_kept_trans w w2 _ H
                     (rows_kept_get_status_code http_get url opts cache_file w2))
                (find_all ["a"; "object"] (parse html))
                {| outside := w1; soup_doc := parse html; calls := [] |} Hi)
    as Hp.
  destruct (for_each _ _ _) as [[[]|e] p]; exact Hp.
Qed.

Lemma requested_once_get_status_code
    (http_get : list (string * Q) -> string -> Q -> result http_result)
    url opts path table0 req0 w :
  nonempty_string path = true ->
  requested_once path table0 req0 w ->
  requested_once path table0 req0
    (get_status_code http_get url opts (VStr path) w).2.
Proof.
  intros Hpath (new & table & Hr & Ht & Hn & Hnew & Hold).
  destruct (get_status_code_world http_get url opts (VStr path) w)
    as [->|[(t & Hoff & ->)|(t & q & table' & r & Hq & Ht' & Hu & ->)]].
  - now exists new, table.
  - simpl in Hoff. congruence.
  - injection Hq as <-. rewrite Ht in Ht'. injection Ht' as <-.
    exists ((url, t) :: new), (<[url := r]> table). simpl.
    rewrite Hr, store_lookup_insert_eq
      by (eapply store_lookup_persistent; eassumption).
    split; [reflexivity|]. split; [reflexivity|]. split; [|split].
    + apply NoDup_cons. split; [|exact Hn].
      intros Hin. destruct (Hnew url Hin) as [_ [x Hx]]. congruence.
    + intros u Hin. apply elem_of_cons in Hin as [->|Hin].
      * split; [|rewrite lookup_insert_eq; eauto].
        destruct (table0 !! url) eqn:E; [|reflexivity].
        destruct (Hold url) as [x Hx]; [eauto|congruence].
      * destruct (Hnew u Hin) as [H0 [x Hx]]. split; [exact H0|].
        destruct (decide (u = url)) as [->|Hne];
          [rewrite lookup_insert_eq; eauto|].
        rewrite lookup_insert_ne by congruence. eauto.
    + intros u Hu0. destruct (decide (u = url)) as [->|Hne];
        [rewrite lookup_insert_eq; eauto|].
      rewrite lookup_insert_ne by congruence. now apply Hold.
Qed.

(** X16. With the cache on, over a loop on any list of anchors: no URL is
    requested twice, no URL that had a row in the cache before the loop
    is requested at all, and every URL that was requested has its row in
    the cache after the loop. So several anchors to one URL cost one
    request, and a URL once cached is never asked again. *)
Theorem cached_pass_requests_each_url_once
    (http_get : list (string * Q) -> string -> Q -> result http_result)
    siteurl opts path l p table0 :
  nonempty_string path = true ->
  caches (outside p) !! path = Some table0 ->
  let p' :=
    (for_each l (check_anchor http_get siteurl opts (VStr path)) p).2 in
  exists new table,
    requests (outside p') = (new ++ requests (outside p))%list
    /\ caches (outside p') !! path = Some table
    /\ NoDup (map fst new)
    /\ (forall u, u ∈ map fst new ->
          table0 !! u = None /\ is_Some (table !! u)).
Proof.
  intros Hpath Ht p'.
  assert (requested_once path table0 (requests (outside p)) (outside p'))
    as (new & table & Hr & Htab & Hn & Hnew & _).
  { apply (pass_outside_invariant
             (requested_once path table0 (requests (outside p)))).
    - intros url w. now apply requested_once_get_status_code.
    - exists [], table0.
      split; [reflexivity|]. split; [exact Ht|].
      split; [apply NoDup_nil_2|]. split; [|auto].
      intros u Hu. apply elem_of_nil in Hu. destruct Hu. }
  exists new, table. repeat split; try assumption; now apply Hnew.
Qed.

Lemma cached_pass_requests_each_url_once_witness :
  let p' :=
    (for_each [2%nat; 3%nat]
       (check_anchor (always (Response 404)) no_siteurl cached_opts
          (VStr "cache.db"))
       (fresh_pass cache_ready (two_links url_x))).2 in
  requests (outside p') = [(url_x, one_second)]
  /\ exists new table,
       requests (outside p') = (new ++ [])%list
       /\ caches (outside p') !! "cache.db" = Some table
       /\ NoDup (map fst new)
       /\ (forall u, u ∈ map fst new ->
             (∅ : gmap string row) !! u = None /\ is_Some (table !! u)).
Proof.
  split; [vm_compute; reflexivity|].
  apply (cached_pass_requests_each_url_once (always (Response 404))
           no_siteurl cached_opts "cache.db" [2%nat; 3%nat]
           (fresh_pass cache_ready (two_links url_x)) ∅);
    reflexivity.
Defined.

Lemma get_status_code_cache_off
    (http_get : list (string * Q) -> string -> Q -> result http_result)
    url opts cache_file w :
  truthy cache_file = false ->
  caches (get_status_code http_get url opts cache_file w).2 = caches w.
Proof.
  intros Hc. unfold get_status_code, bind, of_result, subscript. rewrite Hc.
  simpl. destruct (opts !! "timeout_duration_ms") as [ms|]; [|reflexivity].
  destruct (div_ms ms) as [t|e]; [|reflexivity]. simpl.
  unfold requests_get.
  destruct (http_get (requests w) url t) as [r|e]; [|reflexivity].
  now destruct (classify r) as [[a s] c].
Qed.

(** X17. The cache is off unless [cache_file] holds a non-empty value: a
    run under options without [cache_file], with [cache_file] set to
    [None] or to the empty string, or with no [DEADLINK_OPTS] at all,
    creates no cache file and leaves every existing one as it is. *)
Theorem cache_off_by_default
    (http_get : list (string * Q) -> string -> Q -> result http_result)
    (parse : string -> node) (serialize : node -> string) instance w :
  match default (SDict DEFAULT_OPTS) (settings instance !! "DEADLINK_OPTS") with
  | SDict opts => truthy (default VNone (opts !! "cache_file")) = false
  | SVal _ => True
  end ->
  caches (content_object_init http_get parse serialize instance w).2 = caches w.
Proof.
  intros H. unfold content_object_init.
  destruct (_content instance) as [html|]; [|reflexivity].
  destruct (negb (user_enabled instance "DEADLINK_VALIDATION")); [reflexivity|].
  unfold bind at 1, of_result.
  destruct (default (SDict DEFAULT_OPTS) (settings instance !! "DEADLINK_OPTS"))
    as [v|opts]; [reflexivity|].
  simpl as_dict. cbv iota beta. unfold bind. rewrite H. simpl.
  pose proof (pass_outside_invariant (fun w' => caches w' = caches w) http_get
                (default (SVal (VStr EmptyString))
                   (settings instance !! "SITEURL"))
                opts (default VNone (opts !! "cache_file"))
                (fun url w2 Hw =>
                   eq_trans (get_status_code_cache_off http_get url opts _ w2 H)
                     Hw)
                (find_all ["a"; "object"] (parse html))
                {| outside := w; soup_doc := parse html; calls := [] |}
                eq_refl)
    as Hp.
  destruct (for_each _ _ _) as [[[]|e] p]; exact Hp.
Qed.

Lemma cache_off_by_default_witness :
  caches
    (content_object_init (always (Response 404)) (parse_as (two_links url_x))
       (serialize_as "out")
       {| _content := Some "in";
          settings := <["DEADLINK_VALIDATION" := SVal (VBool true)]> ∅ |}
       no_world).2
  = ∅.
Proof.
  apply (cache_off_by_default (always (Response 404))
           (parse_as (two_links url_x)) (serialize_as "out")
           {| _content := Some "in";
              settings := <["DEADLINK_VALIDATION" := SVal (VBool true)]> ∅ |}
           no_world).
  reflexivity.
Defined.

Lemma ids_nodes n : ids n = omap node_id (nodes n).
Proof.
  induction n as [s|i nm at_ cs IH] using node_induction; [reflexivity|].
  rewrite nodes_children. simpl. f_equal.
  induction IH as [|c r Hc _ IHr]; [reflexivity|].
  change (flat_map nodes (c :: r)) with (nodes c ++ flat_map nodes r)%list.
  simpl flat_map. now rewrite omap_app, Hc, IHr.
Qed.

Lemma omap_sublist {A B} (f g : A -> option B) l :
  (forall x y, f x = Some y -> g x = Some y) ->
  omap f l `sublist_of` omap g l.
Proof.
  intros H. induction l as [|x r IH]; simpl; [constructor|].
  destruct (f x) as [y|] eqn:E.
  - rewrite (H x y E). now constructor.
  - destruct (g x); [now constructor|exact IH].
Qed.

(** The anchor list names each tag object once. *)
Lemma find_all_NoDup names t : NoDup (ids t) -> NoDup (find_all names t).
Proof.
  intros H. rewrite ids_nodes in H. unfold find_all.
  assert (NoDup (omap node_id (descendants t))) as Hd.
  { unfold nodes in H. simpl in H.
    destruct (node_id t); [now apply NoDup_cons in H as [_ H]|exact H]. }
  apply (sublist_NoDup _ _ Hd).
  apply omap_sublist. intros [s|i nm at_ cs] y; simpl; [discriminate|].
  now destruct (existsb (String.eqb nm) names).
Qed.

(** X18. In a document whose tags are distinct objects, the anchor list
    names each tag once, and a whole pass over it calls an annotator at
    most once for any tag: no anchor is annotated twice in one pass. *)
Theorem one_call_per_anchor_per_pass
    (http_get : list (string * Q) -> string -> Q -> result http_result)
    siteurl opts cache_file t w a :
  NoDup (ids t) ->
  let anchors := find_all ["a"; "object"] t in
  let p' :=
    (for_each anchors (check_anchor http_get siteurl opts cache_file)
       (fresh_pass w t)).2 in
  NoDup anchors /\ (calls_for a (calls p') <= 1)%nat.
Proof.
  intros Hu anchors p'.
  assert (NoDup anchors) as Hn by now apply find_all_NoDup.
  split; [exact Hn|].
  pose proof (pass_calls_for http_get siteurl opts cache_file anchors
                (fresh_pass w t) a) as Hc.
  apply NoDup_ListNoDup in Hn.
  pose proof (proj1 (NoDup_count_occ Nat.eq_dec anchors) Hn a) as Ho.
  change (calls_for a (calls (fresh_pass w t))) with 0%nat in Hc.
  fold p' in Hc. lia.
Qed.

Lemma one_call_per_anchor_per_pass_witness :
  (calls_for 2
     (calls
        (for_each (find_all ["a"; "object"] (two_links url_x))
           (check_anchor (always (Response 404)) no_siteurl basic_opts VNone)
           (fresh_pass no_world (two_links url_x))).2) <= 1)%nat.
Proof.
  refine (proj2 (one_call_per_anchor_per_pass (always (Response 404))
                   no_siteurl basic_opts VNone (two_links url_x) no_world 2 _)).
  apply (bool_decide_unpack _). vm_compute. reflexivity.
Defined.

Lemma index_first_match tag pre x post :
  Forall (fun y => same_object y tag || node_eqb y tag = false) pre ->
  same_object x tag || node_eqb x tag = true ->
  index tag (pre ++ x :: post) = Some (length pre).
Proof.
  intros H Hx. induction H as [|y r Hy _ IH]; simpl.
  - now rewrite Hx.
  - now rewrite Hy, IH.
Qed.

(** X20. Where the label goes. In a tree whose tags are distinct objects,
    [insert_after_index] puts the new node right after the first child of
    the anchor's parent that is the anchor or equals it (same name, same
    attributes, equal contents): after the anchor itself when nothing to
    its left equals it, after the equal sibling otherwise. The rest of
    the tree is unchanged. *)
Theorem label_follows_first_equal_child
    a nm at_ cs fr up new pre x post p :
  NoDup (ids (soup_doc p)) ->
  soup_doc p = plug (fr :: up) (Tag a nm at_ cs) ->
  (f_left fr ++ Tag a nm at_ cs :: f_right fr)%list = (pre ++ x :: post)%list ->
  Forall (fun y => same_object y (Tag a nm at_ cs)
                   || node_eqb y (Tag a nm at_ cs) = false) pre ->
  same_object x (Tag a nm at_ cs) || node_eqb x (Tag a nm at_ cs) = true ->
  insert_after_index a new p
  = (Ok tt,
     set_soup
       (plug up
          (Tag (f_id fr) (f_name fr) (f_attrs fr) (pre ++ x :: new :: post)))
       p).
Proof.
  intros Hu E Hsplit Hpre Hx.
  pose proof Hu as Hu'. rewrite E in Hu'.
  apply unique_ids_in_context in Hu' as [Ha Hp].
  unfold insert_after_index.
  erewrite bind_ok by reflexivity.
  rewrite E, find_tag_in_context, find_parent_in_context by assumption.
  unfold fill at 1. rewrite Hsplit, index_first_match by assumption.
  unfold modify. do 2 f_equal. simpl plug.
  rewrite update_tag_plug by assumption. f_equal.
  unfold fill at 1. rewrite update_tag_here. simpl.
  now rewrite insert_at_after.
Qed.

Lemma label_follows_first_equal_child_witness :
  insert_after_index 3 (NavigableString "!")
    (fresh_pass no_world (two_links url_x))
  = (Ok tt,
     fresh_pass no_world
       (Tag 0 "[document]" []
          [Tag 1 "p" []
             [link 2 url_x; NavigableString "!"; link 3 url_x]])).
Proof.
  refine (label_follows_first_equal_child 3 "a" [("href", AStr url_x)]
            [NavigableString "x"]
            {| f_id := 1%nat; f_name := "p"; f_attrs := [];
               f_left := [link 2 url_x]; f_right := [] |}
            [ {| f_id := 0%nat; f_name := "[document]"; f_attrs := [];
                 f_left := []; f_right := [] |} ]
            (NavigableString "!") [] (link 2 url_x) [link 3 url_x]
            (fresh_pass no_world (two_links url_x)) _ _ _ _ _);
    try reflexivity.
  - apply (bool_decide_unpack _). vm_compute. reflexivity.
  - constructor.
Defined.
